(** * Kokoro TTS web backend: a shallow embedding of [tts_app/utils.py] and
    [tts_app/views.py], and the properties of its orchestration code.

    Python [str] values are modelled as [string] (code points 0..255, the
    Latin-1 range); the character classes are those of CPython for that range.
    Dictionaries are [gmap]s.  Everything outside the two source files (the
    model hub, the synthesis pipeline, the clock, the host installation) is an
    oracle over an abstract state of the outside world.  The sound files the
    code writes, lists and removes are kept in a store that maps a directory
    to its listing; what the operating system or the sound-file library may
    refuse for reasons of its own is an oracle as well, and so is the way a
    sound file encodes the samples it is given. *)

From Stdlib Require Import Strings.String Strings.Ascii Lists.List Arith.Arith Bool.Bool ZArith.ZArith QArith.QArith Lia.
From stdpp Require Import gmap strings.
Import ListNotations.

Local Open Scope string_scope.
Local Open Scope list_scope.

(* ===================================================================== *)
(** * Python string primitives *)
(* ===================================================================== *)

Module PyStr.

(** [str.isspace] on one character, which is also the class [\s] of [re]
    for [str] patterns: TAB..CR, FS..US, space, NEL and NBSP. *)
Definition isspace (c : ascii) : bool :=
  let n := nat_of_ascii c in
  (((9 <=? n) && (n <=? 13)) || ((28 <=? n) && (n <=? 32))
   || (n =? 133) || (n =? 160))%nat.

(** The class [\w] of [re] for [str] patterns: alphanumeric or underscore. *)
Definition isword (c : ascii) : bool :=
  let n := nat_of_ascii c in
  (((48 <=? n) && (n <=? 57)) || ((65 <=? n) && (n <=? 90)) || (n =? 95)
   || ((97 <=? n) && (n <=? 122))
   || (n =? 170) || (n =? 178) || (n =? 179) || (n =? 181) || (n =? 185)
   || (n =? 186) || ((188 <=? n) && (n <=? 190))
   || ((192 <=? n) && (n <=? 214)) || ((216 <=? n) && (n <=? 246))
   || ((248 <=? n) && (n <=? 255)))%nat.

(** The class [[.!?]]. *)
Definition is_sentence_end (c : ascii) : bool :=
  let n := nat_of_ascii c in ((n =? 46) || (n =? 33) || (n =? 63))%nat.

(** The character [\n]. *)
Definition is_newline (c : ascii) : bool := (nat_of_ascii c =? 10)%nat.

Fixpoint drop_while (p : ascii -> bool) (l : list ascii) : list ascii :=
  match l with
  | [] => []
  | c :: l' => if p c then drop_while p l' else l
  end.

(** Length of the longest prefix whose characters all satisfy [p]: what a
    greedy [p+] consumes. *)
Fixpoint run_length (p : ascii -> bool) (l : list ascii) : nat :=
  match l with
  | [] => 0
  | c :: l' => if p c then S (run_length p l') else 0
  end.

Definition lstrip_chars (l : list ascii) : list ascii := drop_while isspace l.
Definition rstrip_chars (l : list ascii) : list ascii :=
  rev (drop_while isspace (rev l)).
Definition strip_chars (l : list ascii) : list ascii :=
  rstrip_chars (lstrip_chars l).

(** [s.strip()] *)
Definition strip (s : string) : string :=
  string_of_list_ascii (strip_chars (list_ascii_of_string s)).

(** Truth value of a [str]: non-empty. *)
Definition truthy (s : string) : bool :=
  match s with EmptyString => false | String _ _ => true end.

(** [s.endswith(suffix)] *)
Definition endswith (s suffix : string) : bool :=
  let n := String.length s in
  let k := String.length suffix in
  (k <=? n)%nat && String.eqb (substring (n - k) k s) suffix.

End PyStr.

(* ===================================================================== *)
(** * os.path *)
(* ===================================================================== *)

(** [os.path] as [posixpath] has it: the separator is [/].  ([ntpath] takes
    the backslash and the drive colon for separators as well.) *)
Module OsPath.
Import PyStr.

Definition is_sep (c : ascii) : bool := (nat_of_ascii c =? 47)%nat.

Fixpoint take_while (p : ascii -> bool) (l : list ascii) : list ascii :=
  match l with
  | [] => []
  | c :: l' => if p c then c :: take_while p l' else []
  end.

(** [os.path.join(a, p)]: a rooted [p] replaces [a]. *)
Definition join (a p : string) : string :=
  let rooted := match p with String c _ => is_sep c | EmptyString => false end in
  if rooted then p
  else if negb (truthy a) || endswith a "/" then a +:+ p
  else a +:+ "/" +:+ p.

(** [os.path.split(p)]: the text up to the last separator, without its
    trailing separators unless it is made of separators only, and the text
    after the last separator. *)
Definition split_chars (l : list ascii) : list ascii * list ascii :=
  let tail := rev (take_while (fun c => negb (is_sep c)) (rev l)) in
  let head := rev (drop_while (fun c => negb (is_sep c)) (rev l)) in
  let head :=
    if forallb is_sep head then head else rev (drop_while is_sep (rev head)) in
  (head, tail).

(** [os.path.dirname(p)] *)
Definition dirname (p : string) : string :=
  string_of_list_ascii (fst (split_chars (list_ascii_of_string p))).

(** [os.path.basename(p)] *)
Definition basename (p : string) : string :=
  string_of_list_ascii (snd (split_chars (list_ascii_of_string p))).

End OsPath.

(* ===================================================================== *)
(** * utils.py: the sentence splitter *)
(* ===================================================================== *)

Module Splitter.
Import PyStr.

(** One attempt of the pattern
    [(?<=[.!?])\s+|(?<=\w)\s{2,}|\n+] at a position: [prev] is the
    character before the position ([None] at the start of the text), [rest]
    the text from the position on.  The alternatives are tried in order and
    each quantifier is greedy; the result is the length of the match. *)
Definition match_len (prev : option ascii) (rest : list ascii) : option nat :=
  let ws := run_length isspace rest in
  let nl := run_length is_newline rest in
  let behind (cls : ascii -> bool) :=
    match prev with Some c => cls c | None => false end in
  if behind is_sentence_end && (1 <=? ws)%nat then Some ws
  else if behind isword && (2 <=? ws)%nat then Some ws
  else if (1 <=? nl)%nat then Some nl
  else None.

(** The scan of [re.split]: [skip] counts the characters of the current
    match still to be consumed, [cur] holds (reversed) the characters of the
    piece being collected.  A match closes the current piece; the end of the
    text closes the last one. *)
Fixpoint split_go (prev : option ascii) (skip : nat) (cur : list ascii)
         (rest : list ascii) : list (list ascii) :=
  match rest with
  | [] => [rev cur]
  | c :: rest' =>
      match skip with
      | S k => split_go (Some c) k cur rest'
      | O =>
          match match_len prev rest with
          | Some (S k) => rev cur :: split_go (Some c) k [] rest'
          | _ => split_go (Some c) 0 (c :: cur) rest'
          end
      end
  end.

(** [re.split(pattern, text)] *)
Definition re_split (text : string) : list string :=
  map string_of_list_ascii (split_go None 0 [] (list_ascii_of_string text)).

(** [split_sentences(text)] *)
Definition split_sentences (text : string) : list string :=
  let sentences :=
    map strip (List.filter (fun s => truthy (strip s)) (re_split text)) in
  match sentences with
  | [] => [strip text]
  | _ :: _ => sentences
  end.

End Splitter.

Import PyStr Splitter.

(** The characters of a text that are not white space, in order. *)
Definition non_space_chars (s : string) : list ascii :=
  List.filter (fun c => negb (isspace c)) (list_ascii_of_string s).

(** No character of the text is a newline. *)
Definition newline_free (s : string) : Prop :=
  Forall (fun c => is_newline c = false) (list_ascii_of_string s).

(* ===================================================================== *)
(** * Exceptions, floats and the outside world *)
(* ===================================================================== *)

Inductive exn_class :=
| FileNotFoundError | RuntimeError | AttributeError | TypeError
| IsADirectoryError | PermissionError | ExternalError.

(** An exception: its class and [str(e)]. *)
Record exn := Exn { exn_class_of : exn_class; exn_msg : string }.

Inductive result (A : Type) :=
| Ok (a : A)
| Raise (e : exn).
Arguments Ok {A} a.
Arguments Raise {A} e.

(** Python [float]: the operations the code uses, left uninterpreted, so that
    what is proved holds whatever the rounding. *)
Class FloatOps (float : Type) := {
  fzero : float;                        (* 0.0 *)
  fadd : float -> float -> float;       (* x + y *)
  int_truediv : Z -> Z -> float         (* int / int *)
}.

(** What one call [pipeline(sentence, voice=voice)] and the iteration over its
    generator give: the audio tensors yielded, in order, and the exception
    that ended the iteration, if one did.  A tensor is the list of its
    samples along dimension 0. *)
Record outcome (sample : Type) := Outcome {
  yielded : list (list sample);
  raised : option exn
}.
Arguments Outcome {sample} yielded raised.
Arguments yielded {sample} o.
Arguments raised {sample} o.

(** A pipeline object is a callable on (sentence, voice); its behaviour may
    depend on, and change, the state of the outside world. *)
Definition pipeline (ext sample : Type) : Type :=
  string -> string -> ext -> outcome sample * ext.

(** A path as the code takes it apart: [os.path.dirname(p)] and
    [os.path.basename(p)]. *)
Record path := Path { dirname : string; basename : string }.

(** The path [os.path.join(a, name)], taken apart. *)
Definition joined (a name : string) : path :=
  Path (OsPath.dirname (OsPath.join a name)) (OsPath.basename (OsPath.join a name)).

(** A name that has no separator of [os.path] in it, on any platform. *)
Definition plain_name (name : string) : Prop :=
  Forall (fun c => c <> "/"%char /\ c <> "\"%char /\ c <> ":"%char)
         (list_ascii_of_string name).

(** The calls into the operating system and the sound-file library that can
    fail for reasons of their own (permissions, a full disk, a name that
    cannot be created). *)
Inductive io_op :=
| Makedirs (d : string)       (* os.makedirs(d, exist_ok=True) *)
| WriteFile (p : path)        (* sf.write(p, ...) opening p for writing *)
| OpenFile (p : path).        (* sf.SoundFile(p) *)

(** The collaborators that are not part of the repository. *)
Class Outside (ext sample : Type) := {
  (* os.path.exists(r"C:\Program Files\eSpeak NG\espeak-ng-data") *)
  espeak_data_exists : ext -> bool;
  (* os.path.exists(<VOICE_DIR>/<voice>.pt) *)
  voice_file_exists : string -> ext -> bool;
  (* hf_hub_download(repo_id="hexgrad/Kokoro-82M", filename=...) *)
  hf_hub_download : string -> ext -> result unit * ext;
  (* from kokoro import KPipeline; KPipeline(lang_code='a') *)
  KPipeline : ext -> result (pipeline ext sample) * ext;
  (* str(hash(text + str(time.time()))) *)
  hash_now : string -> ext -> string * ext;
  (* the error of a system call, if it fails in this state *)
  io_error : io_op -> ext -> option exn;
  (* soundfile finds a format for the extension of the file name *)
  known_format : string -> bool;
  (* the frames a sound file of that name holds once the data is encoded:
     for .wav, 16-bit PCM, each sample clipped and quantized *)
  sf_encode : string -> list sample -> list sample;
  (* the error of torch.cat(tensors, dim=0), if the tensors do not fit *)
  cat_error : list (list sample) -> option exn
}.

(** A node of the sound-file store: a file holding samples, or a directory. *)
Inductive node (sample : Type) :=
| File (frames : list sample)
| SubDir.
Arguments File {sample} frames.
Arguments SubDir {sample}.

Definition ESPEAK_DATA_PATH : string := "C:\Program Files\eSpeak NG\espeak-ng-data".
Definition MODEL_PATH : string := "kokoro-v1_0.pth".
Definition VOICE_DIR : string := "tts_app/../Kokoro-82M/voices".
Definition AUDIO_DIR : string := "tts_app/static/audio".
Definition SAMPLE_RATE : Z := 24000.

(** A chunk timing [{'start': ..., 'end': ...}]. *)
Record chunk (float : Type) := Chunk { chunk_start : float; chunk_end : float }.
Arguments Chunk {float} chunk_start chunk_end.
Arguments chunk_start {float} c.
Arguments chunk_end {float} c.

(** The dict returned by [generate_audio_for_sentence]. *)
Record synthesis (float : Type) := Synthesis {
  audio_url : string;
  duration : float;
  chunk_timings_of : list (chunk float);
  voice_of : string
}.
Arguments Synthesis {float} audio_url duration chunk_timings_of voice_of.
Arguments audio_url {float} s.
Arguments duration {float} s.
Arguments chunk_timings_of {float} s.
Arguments voice_of {float} s.

Inductive json (float : Type) :=
| ErrorBody (error : string)                      (* {"error": ...} *)
| AudioUrls (audio_urls : list (synthesis float)) (* {"audio_urls": [...]} *)
| StatusBody (status message : string).           (* {"status": ..., "message": ...} *)
Arguments ErrorBody {float} error.
Arguments AudioUrls {float} audio_urls.
Arguments StatusBody {float} status message.

Record JsonResponse (float : Type) := Response {
  content : json float;
  status_code : nat
}.
Arguments Response {float} content status_code.
Arguments content {float} j.
Arguments status_code {float} j.

(** [request.method] and the form fields of [request.POST], in order. *)
Record HttpRequest := Request {
  method : string;
  POST : list (string * string)
}.

(* ===================================================================== *)
(** * The process state and its monad *)
(* ===================================================================== *)

Section Program.
Context {sample float ext : Type} `{FloatOps float} `{Outside ext sample}.

Record world := World {
  kokoro_pipeline : option (pipeline ext sample);   (* views.kokoro_pipeline *)
  voice_cache : gmap string string;                 (* views.voice_cache *)
  environ : gmap string string;                     (* os.environ *)
  espeak_wrapper_data_path : option string;         (* EspeakWrapper.data_path *)
  fs : gmap string (list (string * node sample));   (* directory -> entries *)
  outside : ext
}.

Definition set_kokoro_pipeline (p : option (pipeline ext sample)) (w : world) :=
  World p (voice_cache w) (environ w) (espeak_wrapper_data_path w) (fs w) (outside w).
Definition set_voice_cache (c : gmap string string) (w : world) :=
  World (kokoro_pipeline w) c (environ w) (espeak_wrapper_data_path w) (fs w) (outside w).
Definition set_environ (e : gmap string string) (w : world) :=
  World (kokoro_pipeline w) (voice_cache w) e (espeak_wrapper_data_path w) (fs w) (outside w).
Definition set_espeak_wrapper_data_path (d : option string) (w : world) :=
  World (kokoro_pipeline w) (voice_cache w) (environ w) d (fs w) (outside w).
Definition set_fs (f : gmap string (list (string * node sample))) (w : world) :=
  World (kokoro_pipeline w) (voice_cache w) (environ w) (espeak_wrapper_data_path w) f (outside w).
Definition set_outside (x : ext) (w : world) :=
  World (kokoro_pipeline w) (voice_cache w) (environ w) (espeak_wrapper_data_path w) (fs w) x.

(** A computation: it may raise, and it changes the world either way. *)
Definition M (A : Type) : Type := world -> result A * world.

Definition ret {A} (a : A) : M A := fun w => (Ok a, w).
Definition raise {A} (e : exn) : M A := fun w => (Raise e, w).
Definition bind {A B} (m : M A) (k : A -> M B) : M B :=
  fun w => match m w with
           | (Ok a, w') => k a w'
           | (Raise e, w') => (Raise e, w')
           end.
(** [try: m  except Exception as e: h e] *)
Definition try_except {A} (m : M A) (h : exn -> M A) : M A :=
  fun w => match m w with
           | (Ok a, w') => (Ok a, w')
           | (Raise e, w') => h e w'
           end.
Definition gets {A} (f : world -> A) : M A := fun w => (Ok (f w), w).
Definition modify (f : world -> world) : M unit := fun w => (Ok tt, f w).
(** A call into the outside world. *)
Definition call_out {A} (f : ext -> result A * ext) : M A :=
  fun w => let '(r, x) := f (outside w) in (r, set_outside x w).
Definition of_result {A} (r : result A) : M A := fun w => (r, w).

#[global] Instance M_ret : MRet M := @ret.
#[global] Instance M_bind : MBind M := fun A B k m => bind m k.

(* =================================================================== *)
(** ** The sound-file store *)
(* =================================================================== *)

Local Abbreviation entries := (list (string * node sample)).

Fixpoint find_entry (name : string) (es : entries) : option (node sample) :=
  match es with
  | [] => None
  | (n, x) :: es' => if String.eqb n name then Some x else find_entry name es'
  end.

Fixpoint delete_entry (name : string) (es : entries) : entries :=
  match es with
  | [] => []
  | (n, x) :: es' =>
      if String.eqb n name then es' else (n, x) :: delete_entry name es'
  end.

(** Create or overwrite the file [name]. *)
Fixpoint put_file (name : string) (frames : list sample) (es : entries) : entries :=
  match es with
  | [] => [(name, File frames)]
  | (n, x) :: es' =>
      if String.eqb n name then (n, File frames) :: es'
      else (n, x) :: put_file name frames es'
  end.

(** [os.path.exists(d)] for a directory path of the store. *)
Definition path_exists (d : string) : M bool :=
  gets (fun w => match fs w !! d with Some _ => true | None => false end).

(** [os.makedirs(d, exist_ok=True)].  The store keeps the listing of each
    directory it knows; of what the call creates it records the directory
    [d] itself. *)
Definition makedirs (d : string) : M unit :=
  fun w =>
    if truthy d then
      match fs w !! d with
      | Some _ => (Ok tt, w)
      | None =>
          match io_error (Makedirs d) (outside w) with
          | Some e => (Raise e, w)
          | None => (Ok tt, set_fs (<[d := []]> (fs w)) w)
          end
      end
    else (Raise (Exn FileNotFoundError "[Errno 2] No such file or directory: ''"), w).

(** [os.listdir(d)] *)
Definition listdir (d : string) : M (list string) :=
  fun w =>
    match fs w !! d with
    | Some es => (Ok (map fst es), w)
    | None => (Raise (Exn FileNotFoundError d), w)
    end.

(** [os.remove(os.path.join(d, name))]: only a file can be removed. *)
Definition os_remove (p : path) : M unit :=
  fun w =>
    match fs w !! dirname p with
    | Some es =>
        match find_entry (basename p) es with
        | Some (File _) =>
            (Ok tt, set_fs (<[dirname p := delete_entry (basename p) es]> (fs w)) w)
        | Some SubDir => (Raise (Exn IsADirectoryError (basename p)), w)
        | None => (Raise (Exn FileNotFoundError (basename p)), w)
        end
    | None => (Raise (Exn FileNotFoundError (basename p)), w)
    end.

(** [sf.write(p, data, 24000)]: the format is the one of the extension of
    the file name, and the file holds the data as that format encodes it. *)
Definition sf_write (p : path) (data : list sample) : M unit :=
  fun w =>
    if negb (known_format (basename p)) then
      (Raise (Exn TypeError
                ("No format specified and unable to get format from file extension: "
                 +:+ basename p)), w)
    else
      match io_error (WriteFile p) (outside w) with
      | Some e => (Raise e, w)
      | None =>
          match fs w !! dirname p with
          | Some es =>
              match find_entry (basename p) es with
              | Some SubDir => (Raise (Exn IsADirectoryError (basename p)), w)
              | _ =>
                  (Ok tt,
                   set_fs (<[dirname p :=
                               put_file (basename p) (sf_encode (basename p) data) es]>
                             (fs w)) w)
              end
          | None => (Raise (Exn FileNotFoundError (basename p)), w)
          end
      end.

(** [with sf.SoundFile(p) as f: f.frames]; the sample rate read back is the
    one the file was written with. *)
Definition sf_frames (p : path) : M Z :=
  fun w =>
    match io_error (OpenFile p) (outside w) with
    | Some e => (Raise e, w)
    | None =>
        match fs w !! dirname p with
        | Some es =>
            match find_entry (basename p) es with
            | Some (File frames) => (Ok (Z.of_nat (length frames)), w)
            | _ => (Raise (Exn FileNotFoundError (basename p)), w)
            end
        | None => (Raise (Exn FileNotFoundError (basename p)), w)
        end
    end.

(** [torch.cat(tensors, dim=0).cpu().numpy()] *)
Definition torch_cat (tensors : list (list sample)) : M (list sample) :=
  match cat_error tensors with
  | Some e => raise e
  | None => ret (concat tensors)
  end.

(* =================================================================== *)
(** ** utils.py: generate_speech *)
(* =================================================================== *)

(** The accumulators of the sentence loop. *)
Record accum := Accum {
  audio_segments : list (list sample);
  chunk_timings : list (chunk float);
  current_time : float
}.

Definition accum_init : accum := Accum [] [] fzero.

(** The body of [for _, _, audio in generator]. *)
Definition take_segment (st : accum) (audio : list sample) : accum :=
  let chunk_duration := int_truediv (Z.of_nat (length audio)) SAMPLE_RATE in
  Accum (audio_segments st ++ [audio])
        (chunk_timings st
           ++ [Chunk (current_time st) (fadd (current_time st) chunk_duration)])
        (fadd (current_time st) chunk_duration).

(** [for i, sentence in enumerate(sentences)]: a blank sentence is passed
    over; the segments a generator yields are taken one by one, and an
    exception that ends the iteration is logged and swallowed. *)
Fixpoint synth_loop (pl : pipeline ext sample) (voice : string)
         (sentences : list string) (st : accum) (x : ext) : accum * ext :=
  match sentences with
  | [] => (st, x)
  | sentence :: rest =>
      let sentence := strip sentence in
      if negb (truthy sentence) then synth_loop pl voice rest st x
      else
        let '(o, x') := pl sentence voice x in
        let st' := fold_left take_segment (yielded o) st in
        match raised o with
        | Some _ => (* except Exception: continue *)
            synth_loop pl voice rest st' x'
        | None => synth_loop pl voice rest st' x'
        end
  end.

(** The outcomes of the pipeline calls the loop makes, in order: one for
    each sentence that is not blank. *)
Fixpoint loop_outcomes (pl : pipeline ext sample) (voice : string)
         (sentences : list string) (x : ext) : list (outcome sample) :=
  match sentences with
  | [] => []
  | sentence :: rest =>
      let sentence := strip sentence in
      if negb (truthy sentence) then loop_outcomes pl voice rest x
      else
        let '(o, x') := pl sentence voice x in
        o :: loop_outcomes pl voice rest x'
  end.

(** The sentence was synthesized without an exception. *)
Definition succeeded (o : outcome sample) : bool :=
  match raised o with None => true | Some _ => false end.

Definition run_synth_loop (pl : pipeline ext sample) (voice : string)
           (sentences : list string) : M accum :=
  fun w => let '(st, x) := synth_loop pl voice sentences accum_init (outside w) in
           (Ok st, set_outside x w).

(** [generate_speech(text, voice, output_path, pipeline)].  The outer
    [try ... except Exception: raise] re-raises what it catches. *)
Definition generate_speech (text voice : string) (output_path : path)
           (pl : pipeline ext sample)
  : M (list (list sample) * list (chunk float) * float) :=
  present ← gets (fun w => espeak_data_exists (outside w));
  if negb present then
    raise (Exn FileNotFoundError
             ("espeak-ng data path not found at " +:+ ESPEAK_DATA_PATH))
  else
    modify (set_espeak_wrapper_data_path (Some ESPEAK_DATA_PATH));;
    local ← gets (fun w => voice_file_exists voice (outside w));
    (if negb local
     then call_out (hf_hub_download ("voices/" +:+ voice +:+ ".pt"))
     else mret tt);;
    st ← run_synth_loop pl voice (split_sentences text);
    match audio_segments st with
    | [] => raise (Exn RuntimeError "No audio segments generated")
    | _ :: _ =>
        full_audio ← torch_cat (audio_segments st);
        makedirs (dirname output_path);;
        sf_write output_path full_audio;;
        frames ← sf_frames output_path;
        mret (audio_segments st, chunk_timings st, int_truediv frames SAMPLE_RATE)
    end.

(** The state of the outside world when [generate_speech] enters its
    sentence loop: the voice file has been looked for and, if it was not
    there, fetched. *)
Definition loop_entry (voice : string) (w : world) : ext :=
  if voice_file_exists voice (outside w) then outside w
  else snd (hf_hub_download ("voices/" +:+ voice +:+ ".pt") (outside w)).

(** The voice file is there or can be fetched. *)
Definition voice_available (voice : string) (w : world) : Prop :=
  voice_file_exists voice (outside w) = true
  \/ fst (hf_hub_download ("voices/" +:+ voice +:+ ".pt") (outside w)) = Ok tt.

(** The accumulators with which [generate_speech] leaves its loop, when it
    gets that far from the world [w]. *)
Definition loop_exit (pl : pipeline ext sample) (voice text : string)
           (w : world) : accum :=
  fst (synth_loop pl voice (split_sentences text) accum_init (loop_entry voice w)).

(** [chain t0 cs t1]: the chunks [cs] lead from time [t0] to time [t1], each
    starting where the one before it ends. *)
Inductive chain : float -> list (chunk float) -> float -> Prop :=
| chain_nil t : chain t [] t
| chain_cons t c cs t' :
    chunk_start c = t -> chain (chunk_end c) cs t' -> chain t (c :: cs) t'.

(** The timings accumulated so far lead from [0.0] to [current_time]. *)
Definition chained (st : accum) : Prop :=
  chain fzero (chunk_timings st) (current_time st).

(* =================================================================== *)
(** ** views.py *)
(* =================================================================== *)

(** [initialize_kokoro_pipeline()] *)
Definition initialize_kokoro_pipeline : M unit :=
  p ← gets kokoro_pipeline;
  match p with
  | Some _ => mret tt
  | None =>
      try_except
        (modify (fun w =>
           set_environ (<["ESPEAK_DATA_PATH" := ESPEAK_DATA_PATH]> (environ w)) w);;
         call_out (hf_hub_download MODEL_PATH);;
         p ← call_out KPipeline;
         modify (set_kokoro_pipeline (Some p)))
        (fun e => modify (set_kokoro_pipeline None);; raise e)
  end.

(** Calling the module-level handle; calling [None] raises [TypeError]. *)
Definition call_handle (p : option (pipeline ext sample)) : pipeline ext sample :=
  match p with
  | Some pl => pl
  | None => fun _ _ x =>
      (Outcome [] (Some (Exn TypeError "'NoneType' object is not callable")), x)
  end.

(** The body of [generate_audio_for_sentence], one attempt. *)
Definition generate_audio_for_sentence_once (text voice : string)
           (output_path : path) : M (synthesis float) :=
  p ← gets kokoro_pipeline;
  match p with None => initialize_kokoro_pipeline | Some _ => mret tt end;;
  cache ← gets voice_cache;
  match cache !! voice with
  | Some _ => mret tt
  | None =>
      local ← gets (fun w => voice_file_exists voice (outside w));
      (if negb local
       then call_out (hf_hub_download ("voices/" +:+ voice +:+ ".pt"))
       else mret tt);;
      modify (fun w =>
        set_voice_cache
          (<[voice := VOICE_DIR +:+ "/" +:+ voice +:+ ".pt"]> (voice_cache w)) w)
  end;;
  p ← gets kokoro_pipeline;
  r ← generate_speech text voice output_path (call_handle p);
  let '(_, timings, duration) := r in
  mret (Synthesis ("/static/audio/" +:+ basename output_path) duration timings voice).

(** The [retry] decorator: after a failed attempt, [again] more attempts;
    the exception of the last attempt is the one that propagates. *)
Fixpoint retry_more {A} (again : nat) (f : M A) : M A :=
  match again with
  | O => f
  | S n => try_except f (fun _ => retry_more n f)
  end.

(** [@retry(tries=3, delay=1, backoff=2)] *)
Definition generate_audio_for_sentence (text voice : string)
           (output_path : path) : M (synthesis float) :=
  retry_more 2 (generate_audio_for_sentence_once text voice output_path).

(** [QueryDict.getlist(key)] and [QueryDict.get(key)] (the last value). *)
Definition getlist (key : string) (post : list (string * string)) : list string :=
  map snd (List.filter (fun kv => String.eqb (fst kv) key) post).

Definition get (key : string) (post : list (string * string)) : option string :=
  match getlist key post with
  | [] => None
  | v :: vs => Some (List.last (v :: vs) v)
  end.

(** [request.POST.getlist("text[]") or [request.POST.get("text")]] *)
Definition request_texts (post : list (string * string)) : list (option string) :=
  match getlist "text[]" post with
  | [] => [get "text" post]
  | v :: vs => map Some (v :: vs)
  end.

(** [request.POST.getlist("voice[]") or [request.POST.get("voice", "af_heart")]] *)
Definition request_voices (post : list (string * string)) : list string :=
  match getlist "voice[]" post with
  | [] => [match get "voice" post with Some v => v | None => "af_heart" end]
  | v :: vs => v :: vs
  end.

(** [text.strip()] on a value that may be [None]. *)
Definition strip_text (text : option string) : result string :=
  match text with
  | Some t => Ok (strip t)
  | None => Raise (Exn AttributeError "'NoneType' object has no attribute 'strip'")
  end.

(** [any(text.strip() for text in texts)] *)
Fixpoint any_stripped (texts : list (option string)) : result bool :=
  match texts with
  | [] => Ok false
  | text :: rest =>
      match strip_text text with
      | Raise e => Raise e
      | Ok t => if truthy t then Ok true else any_stripped rest
      end
  end.

(** [not texts or not any(text.strip() for text in texts)] *)
Definition no_text (texts : list (option string)) : result bool :=
  match texts with
  | [] => Ok true
  | _ :: _ =>
      match any_stripped texts with
      | Ok b => Ok (negb b)
      | Raise e => Raise e
      end
  end.

(** Lines 104-105: the voices list the loop runs on. *)
Definition pad_voices (voices : list string) (n_texts : nat) : list string :=
  if (length voices =? n_texts)%nat then voices
  else
    voices ++ repeat (match voices with
                      | [] => "af_heart"
                      | v :: vs => List.last (v :: vs) v
                      end)
                     (n_texts - length voices).

(** [for i, (text, voice) in enumerate(zip(texts, voices))] *)
Fixpoint generate_loop (pairs : list (option string * string))
         (results : list (synthesis float)) : M (list (synthesis float)) :=
  match pairs with
  | [] => mret results
  | (text, voice) :: rest =>
      text ← of_result (strip_text text);
      if negb (truthy text) then generate_loop rest results
      else
        h ← call_out (fun x => let '(h, x') := hash_now text x in (Ok h, x'));
        let output_path := joined AUDIO_DIR (voice +:+ "_" +:+ h +:+ ".wav") in
        r ← generate_audio_for_sentence text voice output_path;
        generate_loop rest (results ++ [r])
  end.

(** [generate(request)] *)
Definition generate (request : HttpRequest) : M (JsonResponse float) :=
  if negb (String.eqb (method request) "POST") then
    mret (Response (ErrorBody "Invalid request method") 400)
  else
    try_except
      (let texts := request_texts (POST request) in
       let voices := request_voices (POST request) in
       blank ← of_result (no_text texts);
       if (blank : bool) then mret (Response (ErrorBody "No text provided") 400)
       else
         let voices := pad_voices voices (length texts) in
         p ← gets kokoro_pipeline;
         match p with None => initialize_kokoro_pipeline | Some _ => mret tt end;;
         makedirs AUDIO_DIR;;
         results ← generate_loop (combine texts voices) [];
         mret (Response (AudioUrls results) 200))
      (fun e => mret (Response (ErrorBody (exn_msg e)) 500)).

(** [for file in os.listdir(audio_dir): if file.endswith(".wav"): os.remove(...)].
    A name that [os.listdir] gives has no separator in it, so the path joined
    from it comes apart into the directory and the name. *)
Fixpoint remove_wav_files (names : list string) : M unit :=
  match names with
  | [] => mret tt
  | file :: rest =>
      (if endswith file ".wav" then os_remove (Path AUDIO_DIR file) else mret tt);;
      remove_wav_files rest
  end.

(** [cleanup_audio(request)] *)
Definition cleanup_audio (request : HttpRequest) : M (JsonResponse float) :=
  try_except
    (present ← path_exists AUDIO_DIR;
     (if (present : bool)
      then names ← listdir AUDIO_DIR; remove_wav_files names
      else mret tt);;
     mret (Response (StatusBody "success" "Audio folder cleaned up") 200))
    (fun e => mret (Response (StatusBody "error" (exn_msg e)) 500)).

(** The (text, voice) pairs the loop of [generate] runs on:
    [zip(texts, voices)] after the padding of [voices]. *)
Definition request_pairs (post : list (string * string))
  : list (option string * string) :=
  let texts := request_texts post in
  combine texts (pad_voices (request_voices post) (length texts)).

(** A text that is blank: a string of white space only. *)
Definition is_blank (text : option string) : bool :=
  match text with
  | Some t => negb (truthy (strip t))
  | None => false
  end.

Definition non_blank_pairs (pairs : list (option string * string))
  : list (option string * string) :=
  List.filter (fun tv => negb (is_blank (fst tv))) pairs.

(** [r] is the entry of the response for the pair [tv]: what
    [generate_audio_for_sentence] returned for the trimmed text and the
    voice, written to the path that joins the audio directory and a file
    name made of the voice and a hash; the url ends in the base name of that
    path. *)
Definition entry_for (r : synthesis float) (tv : option string * string) : Prop :=
  voice_of r = snd tv
  /\ exists t h w1 w2,
      let output_path := joined AUDIO_DIR (snd tv +:+ "_" +:+ h +:+ ".wav") in
      fst tv = Some t
      /\ generate_audio_for_sentence (strip t) (snd tv) output_path w1 = (Ok r, w2)
      /\ audio_url r = "/static/audio/" +:+ basename output_path.


(** What the cleanup loop leaves of a directory when it runs to its end. *)
Definition keep_non_wav (es : entries) : entries :=
  List.filter (fun e => negb (endswith (fst e) ".wav")) es.


(** Fetching the model file and building the pipeline, as the initializer
    does it. *)
Definition construct_pipeline (x : ext) : result (pipeline ext sample) * ext :=
  match hf_hub_download MODEL_PATH x with
  | (Ok _, x') => KPipeline x'
  | (Raise e, x') => (Raise e, x')
  end.

(** A computation that leaves the pipeline handle alone when it is there. *)
Definition keeps_ready {A} (m : M A) : Prop :=
  forall w p, kokoro_pipeline w = Some p -> kokoro_pipeline (snd (m w)) = Some p.

(** Lines 66-76 of utils.py, the steps [generate_speech] takes once its loop
    has gathered segments: join them, write the file, read its length back. *)
Definition save_audio (output_path : path) (segments : list (list sample))
  : M float :=
  full_audio ← torch_cat segments;
  makedirs (dirname output_path);;
  sf_write output_path full_audio;;
  frames ← sf_frames output_path;
  mret (int_truediv frames SAMPLE_RATE).

(** The world in which [generate_speech] leaves its loop, when it gets that
    far from the world [w]. *)
Definition loop_world (pl : pipeline ext sample) (voice text : string)
           (w : world) : world :=
  set_outside
    (snd (synth_loop pl voice (split_sentences text) accum_init (loop_entry voice w)))
    (set_espeak_wrapper_data_path (Some ESPEAK_DATA_PATH) w).

(** The store after [sf.write(p, data, 24000)] into a directory made on
    demand. *)
Definition store_after_write (p : path) (data : list sample)
           (f : gmap string (list (string * node sample)))
  : gmap string (list (string * node sample)) :=
  <[dirname p := put_file (basename p) (sf_encode (basename p) data)
                          (default [] (f !! dirname p))]> f.

(** Nothing stands in the way of saving the segments at [p]: the tensors can
    be joined, the directory is there or can be made, the extension names a
    format, the file can be opened for writing and for reading, and no
    directory has the name of the file. *)
Definition writable (p : path) (segments : list (list sample)) (w : world) : Prop :=
  cat_error segments = None
  /\ dirname p <> ""
  /\ (fs w !! dirname p = None -> io_error (Makedirs (dirname p)) (outside w) = None)
  /\ known_format (basename p) = true
  /\ io_error (WriteFile p) (outside w) = None
  /\ io_error (OpenFile p) (outside w) = None
  /\ forall es, fs w !! dirname p = Some es ->
                find_entry (basename p) es <> Some SubDir.

(** The timings of segments that follow one another from the time [t]. *)
Fixpoint timings_from (t : float) (segments : list (list sample))
  : list (chunk float) :=
  match segments with
  | [] => []
  | audio :: rest =>
      let chunk_duration := int_truediv (Z.of_nat (length audio)) SAMPLE_RATE in
      Chunk t (fadd t chunk_duration) :: timings_from (fadd t chunk_duration) rest
  end.

(** The window of a chunk has the length of its segment: [end] is [start]
    plus the segment's sample count over the sample rate. *)
Definition window_of (c : chunk float) (audio : list sample) : Prop :=
  chunk_end c
  = fadd (chunk_start c) (int_truediv (Z.of_nat (length audio)) SAMPLE_RATE).

(** Timings that begin at [0.0] and follow one another without a gap. *)
Definition contiguous (cs : list (chunk float)) : Prop :=
  (exists c, cs !! 0 = Some c /\ chunk_start c = fzero)
  /\ forall i a b, cs !! i = Some a -> cs !! S i = Some b ->
                   chunk_end a = chunk_start b.

(** A computation that takes every world to one related to it by [R]. *)
Definition respects (R : world -> world -> Prop) {A} (m : M A) : Prop :=
  forall w, R w (snd (m w)).

(** Every voice in the cache is still there, with the same path. *)
Definition cache_kept (w w' : world) : Prop :=
  forall v p, voice_cache w !! v = Some p -> voice_cache w' !! v = Some p.

(** Every directory of the store but the audio directory is as it was. *)
Definition other_dirs_kept (w w' : world) : Prop :=
  forall d, d <> AUDIO_DIR -> fs w' !! d = fs w !! d.

(** Every name that was in a directory of the store is still there. *)
Definition names_kept (w w' : world) : Prop :=
  forall d es name,
    fs w !! d = Some es -> is_Some (find_entry name es) ->
    exists es', fs w' !! d = Some es' /\ is_Some (find_entry name es').

(** Every entry of the audio directory whose name does not end in [.wav] is
    as it was. *)
Definition non_wav_kept (w w' : world) : Prop :=
  forall es, fs w !! AUDIO_DIR = Some es ->
    exists es', fs w' !! AUDIO_DIR = Some es'
                /\ forall name, endswith name ".wav" = false ->
                                find_entry name es' = find_entry name es.

(** Every file of the store is still a file (its samples may have been
    written anew). *)
Definition files_kept (w w' : world) : Prop :=
  forall d es name frames,
    fs w !! d = Some es -> find_entry name es = Some (File frames) ->
    exists es' frames',
      fs w' !! d = Some es' /\ find_entry name es' = Some (File frames').

(** The audio file of a response entry is in the audio directory: the url of
    the entry is [/static/audio/<name>] and [<name>] is a file there. *)
Definition served (w : world) (r : synthesis float) : Prop :=
  exists name es frames,
    audio_url r = "/static/audio/" +:+ name
    /\ fs w !! AUDIO_DIR = Some es
    /\ find_entry name es = Some (File frames).

(** What can happen to the process state during the life of the process:
    a view is called, or the outside world moves on. *)
Inductive process_step : world -> world -> Prop :=
| step_generate request w : process_step w (snd (generate request w))
| step_cleanup request w : process_step w (snd (cleanup_audio request w))
| step_outside x w : process_step w (set_outside x w).

End Program.

Arguments world : clear implicits.
Arguments M : clear implicits.
Arguments accum : clear implicits.

(* ===================================================================== *)
(** * A small concrete outside world, to run the program on *)
(* ===================================================================== *)

Module Toy.

(** Exact rational arithmetic in place of floats. *)
#[global] Instance Q_float : FloatOps Q := {|
  fzero := 0%Q;
  fadd x y := Qred (x + y)%Q;
  int_truediv a b := Qred (Qmake a (Z.to_pos b))
|}.

Record host := Host {
  has_espeak : bool;        (* the espeak-ng data directory is installed *)
  hub_online : bool;        (* the model hub answers *)
  local_voices : list string;
  clock : nat
}.

(** A pipeline whose behaviour is read off the sentence: a sentence ending
    in [!] fails at once, one ending in [?] fails after a first segment, a
    sentence of more than 20 characters comes in two segments, any other in
    one.  A segment has one sample per character. *)
Definition speak : pipeline host Z :=
  fun sentence voice x =>
    let seg := repeat 0%Z (String.length sentence) in
    let err := Exn ExternalError "synthesis failed" in
    if endswith sentence "!" then (Outcome [] (Some err), x)
    else if endswith sentence "?" then (Outcome [seg] (Some err), x)
    else if (20 <? String.length sentence)%nat then (Outcome [seg; seg] None, x)
    else (Outcome [seg] None, x).

(** A sample as 16-bit PCM keeps it: clipped to the range of a short. *)
Definition pcm16 (z : Z) : Z := Z.max (-32768) (Z.min 32767 z).

Definition tick (x : host) : host :=
  Host (has_espeak x) (hub_online x) (local_voices x) (S (clock x)).

#[global] Instance toy_outside : Outside host Z := {|
  espeak_data_exists x := has_espeak x;
  voice_file_exists voice x :=
    bool_decide (voice +:+ ".pt" ∈ local_voices x);
  hf_hub_download name x :=
    if hub_online x
    then (Ok tt, Host (has_espeak x) (hub_online x) (name :: local_voices x) (clock x))
    else (Raise (Exn ExternalError "hub unreachable"), x);
  KPipeline x :=
    if hub_online x then (Ok speak, x)
    else (Raise (Exn ExternalError "cannot load model"), x);
  hash_now text x :=
    (string_of_list_ascii (repeat "7"%char (S (clock x))), tick x);
  io_error op x :=
    match op with
    | Makedirs d =>
        if endswith d "/locked" then Some (Exn PermissionError d) else None
    | _ => None
    end;
  known_format name := endswith name ".wav" || endswith name ".flac";
  sf_encode name data := map pcm16 data;
  cat_error tensors := None
|}.

Definition good_host : host := Host true true ["af_heart.pt"] 0.
Definition offline_host : host := Host true false [] 0.

Definition out_wav : path := Path AUDIO_DIR "out.wav".

(** A fresh process on [x]: nothing cached, an empty store. *)
Definition fresh (x : host) : world Z host := World None ∅ ∅ None ∅ x.

(** A process whose pipeline is ready and whose audio directory holds [es]. *)
Definition ready (es : list (string * node Z)) (x : host) : world Z host :=
  World (Some speak) ∅ ∅ None {[ AUDIO_DIR := es ]} x.

(** A process that has served a voice before: the pipeline is ready and the
    voice is in the cache. *)
Definition warm (x : host) : world Z host :=
  World (Some speak) {[ "bf_emma" := "cache/bf_emma.pt" ]} ∅ None ∅ x.

(** A ready process with a second directory next to the audio directory. *)
Definition two_dirs (audio css : list (string * node Z)) (x : host) : world Z host :=
  World (Some speak) ∅ ∅ None
        {[ AUDIO_DIR := audio; "tts_app/static/css" := css ]} x.

End Toy.

(* ===================================================================== *)
(** * Facts about the string primitives *)
(* ===================================================================== *)

Section StripFacts.

Variable p : ascii -> bool.

Lemma drop_while_idem l : drop_while p (drop_while p l) = drop_while p l.
Proof.
  induction l as [|c l IH]; simpl; [reflexivity|].
  destruct (p c) eqn:E; [exact IH|]. simpl. now rewrite E.
Qed.

(** What [drop_while] removes is a prefix of characters of the class. *)
Lemma drop_while_split l :
  exists pre, l = pre ++ drop_while p l /\ Forall (fun c => p c = true) pre.
Proof.
  induction l as [|c l (pre & IH1 & IH2)]; simpl.
  - exists []. split; [reflexivity | constructor].
  - destruct (p c) eqn:E.
    + exists (c :: pre). split; [simpl; congruence | now constructor].
    + exists []. split; [reflexivity | constructor].
Qed.

Lemma drop_while_all l : Forall (fun c => p c = true) l -> drop_while p l = [].
Proof.
  induction 1 as [|c l Hc _ IH]; simpl; [reflexivity|]. now rewrite Hc.
Qed.

Lemma drop_while_nil_all l : drop_while p l = [] -> Forall (fun c => p c = true) l.
Proof.
  intros E. destruct (drop_while_split l) as (pre & Hl & Hpre).
  rewrite E, app_nil_r in Hl. now subst.
Qed.

Lemma drop_while_head c l : p c = false -> drop_while p (c :: l) = c :: l.
Proof. intros E. simpl. now rewrite E. Qed.

End StripFacts.

Lemma rstrip_chars_idem l : rstrip_chars (rstrip_chars l) = rstrip_chars l.
Proof. unfold rstrip_chars. now rewrite rev_involutive, drop_while_idem. Qed.

(** [rstrip] keeps a prefix and drops only white space. *)
Lemma rstrip_chars_split l :
  exists post, l = rstrip_chars l ++ post /\ Forall (fun c => isspace c = true) post.
Proof.
  unfold rstrip_chars.
  destruct (drop_while_split isspace (rev l)) as (pre & Hl & Hpre).
  exists (rev pre). split.
  - rewrite <- rev_app_distr, <- Hl. symmetry. apply rev_involutive.
  - now apply List.Forall_rev.
Qed.

Lemma lstrip_rstrip_lstrip l :
  lstrip_chars (rstrip_chars (lstrip_chars l)) = rstrip_chars (lstrip_chars l).
Proof.
  unfold lstrip_chars.
  destruct (rstrip_chars_split (drop_while isspace l)) as (post & Hm & _).
  destruct (rstrip_chars (drop_while isspace l)) as [|c r] eqn:Er; [reflexivity|].
  apply drop_while_head.
  destruct (isspace c) eqn:Ec; [|reflexivity].
  assert (Hid := drop_while_idem isspace l).
  rewrite Hm in Hid at 1. simpl in Hid. rewrite Ec in Hid.
  (* the head of a left-stripped text cannot be white space *)
  assert (Hlen : length (drop_while isspace (r ++ post)) <= length (r ++ post)).
  { destruct (drop_while_split isspace (r ++ post)) as (pre & Hs & _).
    rewrite Hs at 2. rewrite length_app. lia. }
  rewrite Hid, Hm in Hlen. simpl in Hlen. lia.
Qed.

Lemma strip_chars_idem l : strip_chars (strip_chars l) = strip_chars l.
Proof.
  unfold strip_chars. now rewrite lstrip_rstrip_lstrip, rstrip_chars_idem.
Qed.

Lemma strip_chars_blank l :
  strip_chars l = [] <-> Forall (fun c => isspace c = true) l.
Proof.
  unfold strip_chars, lstrip_chars. split.
  - intros E.
    destruct (rstrip_chars_split (drop_while isspace l)) as (post & Hm & Hpost).
    rewrite E in Hm. simpl in Hm.
    destruct (drop_while_split isspace l) as (pre & Hl & Hpre).
    rewrite Hl, Hm. now apply Forall_app.
  - intros Hall. now rewrite (drop_while_all _ _ Hall).
Qed.

Lemma strip_idem s : strip (strip s) = strip s.
Proof.
  unfold strip. now rewrite list_ascii_of_string_of_list_ascii, strip_chars_idem.
Qed.

Lemma string_of_list_ascii_empty l : string_of_list_ascii l = "" <-> l = [].
Proof. destruct l; simpl; split; congruence. Qed.

Lemma strip_blank s :
  strip s = "" <-> Forall (fun c => isspace c = true) (list_ascii_of_string s).
Proof.
  unfold strip. rewrite string_of_list_ascii_empty. apply strip_chars_blank.
Qed.

Lemma truthy_true s : truthy s = true <-> s <> "".
Proof. destruct s; simpl; split; congruence. Qed.

Lemma truthy_false s : truthy s = false <-> s = "".
Proof. destruct s; simpl; split; congruence. Qed.

(* ===================================================================== *)
(** * The sentence splitter *)
(* ===================================================================== *)

(** Every piece of the scan is made of characters of the piece under way and
    of the text still to be read. *)
Lemma split_go_chars (P : ascii -> Prop) rest :
  forall prev skip cur,
    Forall P cur -> Forall P rest ->
    Forall (Forall P) (split_go prev skip cur rest).
Proof.
  induction rest as [|c rest IH]; intros prev skip cur Hcur Hrest; simpl.
  - constructor; [|constructor]. now apply List.Forall_rev.
  - inversion Hrest as [|? ? Hc Hrest']; subst.
    destruct skip as [|k]; [|now apply IH].
    destruct (match_len prev (c :: rest)) as [[|k]|].
    + apply IH; [now constructor | assumption].
    + constructor.
      * now apply List.Forall_rev.
      * apply IH; [constructor | assumption].
    + apply IH; [now constructor | assumption].
Qed.

Lemma re_split_blank text :
  strip text = "" -> Forall (fun s => strip s = "") (re_split text).
Proof.
  intros E. apply strip_blank in E. unfold re_split.
  apply List.Forall_map.
  eapply List.Forall_impl; [|apply (split_go_chars _ _ None 0 [] (List.Forall_nil _) E)].
  intros piece Hpiece. apply strip_blank.
  now rewrite list_ascii_of_string_of_list_ascii.
Qed.

Lemma filter_all_blank (l : list string) :
  Forall (fun s => strip s = "") l ->
  List.filter (fun s => truthy (strip s)) l = [].
Proof.
  induction 1 as [|s l Hs _ IH]; simpl; [reflexivity|]. now rewrite Hs.
Qed.

Lemma split_sentences_cases text :
  let kept := List.filter (fun s => truthy (strip s)) (re_split text) in
  (kept = [] /\ split_sentences text = [strip text])
  \/ (kept <> [] /\ split_sentences text = map strip kept).
Proof.
  unfold split_sentences. simpl.
  destruct (List.filter _ (re_split text)) as [|s kept]; simpl.
  - now left.
  - right. split; [discriminate | reflexivity].
Qed.

(** C4 (as amended).  [split_sentences] never returns an empty list; every
    sentence it returns is non-empty after trimming as soon as the text holds
    a character that is not white space; for a text of white space only (the
    empty text included) it returns the single empty string. *)
Theorem split_sentences_nonempty_trimmed (text : string) :
  split_sentences text <> []
  /\ (strip text <> "" ->
      Forall (fun s => strip s <> "") (split_sentences text))
  /\ (strip text = "" -> split_sentences text = [""]).
Proof.
  destruct (split_sentences_cases text) as [[Hk E]|[Hk E]]; rewrite E.
  - repeat split.
    + discriminate.
    + intros Hne. constructor; [now rewrite strip_idem | constructor].
    + intros Hb. now rewrite Hb.
  - repeat split.
    + destruct (List.filter _ _); [congruence | discriminate].
    + intros _. apply List.Forall_map, List.Forall_forall. intros s Hs.
      apply List.filter_In in Hs. destruct Hs as [_ Hs].
      rewrite strip_idem. now apply truthy_true.
    + intros Hb. exfalso. apply Hk.
      apply filter_all_blank, re_split_blank, Hb.
Qed.

Lemma split_sentences_nonempty_trimmed_witness :
  Forall (fun s => strip s <> "") (split_sentences "Hello world. Goodbye now.").
Proof.
  apply (proj1 (proj2 (split_sentences_nonempty_trimmed "Hello world. Goodbye now."))).
  vm_compute. discriminate.
Defined.

(** C4 as stated fails: the empty text yields one sentence, and that sentence
    is empty. *)
Lemma split_sentences_empty_text :
  ~ (forall text, split_sentences text <> []
                  /\ Forall (fun s => strip s <> "") (split_sentences text)).
Proof.
  intros Hclaim. destruct (Hclaim "") as [_ Hall].
  inversion Hall as [|s l Hs _]; subst. apply Hs. reflexivity.
Qed.

(** The examples of the specification. *)
Example split_hello_goodbye :
  split_sentences "Hello world. Goodbye now." = ["Hello world."; "Goodbye now."].
Proof. reflexivity. Qed.

Example split_no_delimiter :
  split_sentences "  no delimiters here " = ["no delimiters here"].
Proof. reflexivity. Qed.

(** ** What the splitter keeps and what it drops *)

(** X1.  Every sentence [split_sentences] returns is already trimmed. *)
Theorem split_sentences_trimmed (text : string) :
  Forall (fun s => strip s = s) (split_sentences text).
Proof.
  destruct (split_sentences_cases text) as [[_ E]|[_ E]]; rewrite E.
  - constructor; [apply strip_idem | constructor].
  - apply List.Forall_map, List.Forall_forall. intros s _. apply strip_idem.
Qed.

Lemma is_newline_isspace c : is_newline c = true -> isspace c = true.
Proof.
  unfold is_newline, isspace. intros E. apply Nat.eqb_eq in E. now rewrite E.
Qed.

Lemma run_length_newline_le l : run_length is_newline l <= run_length isspace l.
Proof.
  induction l as [|c l IH]; simpl; [lia|].
  destruct (is_newline c) eqn:En; [|lia].
  rewrite (is_newline_isspace c En). lia.
Qed.

(** A match consumes white space only. *)
Lemma match_len_bound prev rest n :
  match_len prev rest = Some n -> n <= run_length isspace rest.
Proof.
  unfold match_len. cbv zeta. assert (Hnl := run_length_newline_le rest).
  repeat match goal with
         | |- context [if ?b then _ else _] => destruct b
         end; intros E; try discriminate E; injection E as <-; lia.
Qed.

(** A match is never empty. *)
Lemma match_len_positive prev rest n : match_len prev rest = Some n -> 1 <= n.
Proof.
  unfold match_len. cbv zeta.
  destruct (_ && (1 <=? _)%nat) eqn:E1.
  { apply andb_true_iff in E1. destruct E1 as [_ E1]. apply Nat.leb_le in E1.
    intros [= <-]. exact E1. }
  destruct (_ && (2 <=? _)%nat) eqn:E2.
  { apply andb_true_iff in E2. destruct E2 as [_ E2]. apply Nat.leb_le in E2.
    intros [= <-]. lia. }
  destruct (1 <=? run_length is_newline rest)%nat eqn:E3; [|discriminate].
  apply Nat.leb_le in E3. intros [= <-]. exact E3.
Qed.

(** At a newline the pattern always matches. *)
Lemma match_len_at_newline prev c rest :
  is_newline c = true -> exists k, match_len prev (c :: rest) = Some (S k).
Proof.
  intros En. unfold match_len. simpl.
  rewrite En, (is_newline_isspace c En). simpl.
  repeat match goal with
         | |- context [if ?b then _ else _] => destruct b
         end; eauto.
Qed.

Local Abbreviation ns := (fun c : ascii => negb (isspace c)).

Lemma filter_ns_spaces l :
  Forall (fun c => isspace c = true) l -> List.filter ns l = [].
Proof. induction 1 as [|c l Hc _ IH]; simpl; [reflexivity|]. now rewrite Hc. Qed.

Lemma filter_ns_nil_spaces l :
  List.filter ns l = [] -> Forall (fun c => isspace c = true) l.
Proof.
  induction l as [|c l IH]; simpl; [constructor|].
  destruct (isspace c) eqn:Ec; simpl; [|discriminate].
  intros E. constructor; [exact Ec | now apply IH].
Qed.

Lemma filter_ns_strip l : List.filter ns (strip_chars l) = List.filter ns l.
Proof.
  unfold strip_chars, lstrip_chars.
  destruct (drop_while_split isspace l) as (pre & Hl & Hpre).
  destruct (rstrip_chars_split (drop_while isspace l)) as (post & Hm & Hpost).
  rewrite Hl at 2. rewrite Hm at 2.
  rewrite !List.filter_app, (filter_ns_spaces pre Hpre), (filter_ns_spaces post Hpost).
  simpl. now rewrite app_nil_r.
Qed.

Lemma non_space_chars_of_list l :
  non_space_chars (string_of_list_ascii l) = List.filter ns l.
Proof. unfold non_space_chars. now rewrite list_ascii_of_string_of_list_ascii. Qed.

Lemma non_space_chars_strip s : non_space_chars (strip s) = non_space_chars s.
Proof. unfold strip. rewrite non_space_chars_of_list. apply filter_ns_strip. Qed.

Lemma run_length_cons_le k c rest :
  S k <= run_length isspace (c :: rest) ->
  isspace c = true /\ k <= run_length isspace rest.
Proof. simpl. destruct (isspace c); [split; [reflexivity|lia] | lia]. Qed.

(** The scan drops white space only: the pieces hold, in order, all the other
    characters of the piece under way and of the text still to be read. *)
Lemma split_go_content rest : forall prev skip cur,
  skip <= run_length isspace rest ->
  concat (map (List.filter ns) (split_go prev skip cur rest))
  = List.filter ns (rev cur) ++ List.filter ns rest.
Proof.
  induction rest as [|c rest IH]; intros prev skip cur Hskip.
  - simpl. now rewrite app_nil_r.
  - cbn [split_go]. destruct skip as [|k].
    + destruct (match_len prev (c :: rest)) as [[|k]|] eqn:Em.
      * rewrite IH by lia. cbn [rev]. rewrite List.filter_app, <- app_assoc.
        simpl. now destruct (isspace c).
      * apply match_len_bound, run_length_cons_le in Em. destruct Em as [Hc Hk].
        cbn [map concat]. rewrite (IH _ _ _ Hk). simpl. now rewrite Hc.
      * rewrite IH by lia. cbn [rev]. rewrite List.filter_app, <- app_assoc.
        simpl. now destruct (isspace c).
    + apply run_length_cons_le in Hskip. destruct Hskip as [Hc Hk].
      rewrite (IH _ _ _ Hk). simpl. now rewrite Hc.
Qed.

Lemma re_split_content text :
  concat (map non_space_chars (re_split text)) = non_space_chars text.
Proof.
  unfold re_split. rewrite map_map.
  rewrite (map_ext _ (List.filter ns) non_space_chars_of_list).
  rewrite split_go_content by lia. reflexivity.
Qed.

(** Dropping the blank pieces and trimming the others loses no character
    that is not white space. *)
Lemma kept_content (pieces : list string) :
  concat (map non_space_chars
            (map strip (List.filter (fun s => truthy (strip s)) pieces)))
  = concat (map non_space_chars pieces).
Proof.
  induction pieces as [|s pieces IH]; simpl; [reflexivity|].
  destruct (truthy (strip s)) eqn:Et; simpl.
  - now rewrite IH, non_space_chars_strip.
  - rewrite IH. apply truthy_false, strip_blank in Et.
    unfold non_space_chars at 2. now rewrite (filter_ns_spaces _ Et).
Qed.

(** X2.  [split_sentences] drops white space and nothing else: the
    characters of the sentences that are not white space are, in order, those
    of the text. *)
Theorem split_sentences_content (text : string) :
  concat (map non_space_chars (split_sentences text)) = non_space_chars text.
Proof.
  destruct (split_sentences_cases text) as [[Hk E]|[_ E]]; rewrite E.
  - simpl. rewrite app_nil_r. apply non_space_chars_strip.
  - rewrite kept_content. apply re_split_content.
Qed.

Lemma drop_while_Forall (P : ascii -> Prop) p l :
  Forall P l -> Forall P (drop_while p l).
Proof.
  induction 1 as [|c l Hc Hl IH]; simpl; [constructor|].
  destruct (p c); [exact IH | now constructor].
Qed.

Lemma strip_chars_Forall (P : ascii -> Prop) l :
  Forall P l -> Forall P (strip_chars l).
Proof.
  intros Hl. unfold strip_chars, rstrip_chars, lstrip_chars.
  apply List.Forall_rev, drop_while_Forall, List.Forall_rev, drop_while_Forall, Hl.
Qed.

(** No newline gets into a piece. *)
Lemma split_go_newline_free rest : forall prev skip cur,
  Forall (fun c => is_newline c = false) cur ->
  Forall (Forall (fun c => is_newline c = false)) (split_go prev skip cur rest).
Proof.
  induction rest as [|c rest IH]; intros prev skip cur Hcur; cbn [split_go].
  - constructor; [now apply List.Forall_rev | constructor].
  - destruct skip as [|k]; [|now apply IH].
    destruct (is_newline c) eqn:En.
    + destruct (match_len_at_newline prev c rest En) as [k ->].
      constructor; [now apply List.Forall_rev | apply IH; constructor].
    + destruct (match_len prev (c :: rest)) as [[|k]|].
      * apply IH. now constructor.
      * constructor; [now apply List.Forall_rev | apply IH; constructor].
      * apply IH. now constructor.
Qed.

(** X3.  No sentence [split_sentences] returns contains a newline. *)
Theorem split_sentences_newline_free (text : string) :
  Forall newline_free (split_sentences text).
Proof.
  destruct (split_sentences_cases text) as [[Hk E]|[_ E]]; rewrite E.
  - (* the fallback is taken for a blank text only, and gives the empty string *)
    assert (Hb : non_space_chars text = []).
    { rewrite <- re_split_content, <- kept_content, Hk. reflexivity. }
    apply filter_ns_nil_spaces, strip_blank in Hb. rewrite Hb.
    repeat constructor.
  - apply List.Forall_map, List.Forall_forall. intros s Hs.
    apply List.filter_In in Hs. destruct Hs as [Hs _].
    unfold re_split in Hs. apply List.in_map_iff in Hs.
    destruct Hs as (piece & <- & Hpiece).
    unfold newline_free, strip. rewrite !list_ascii_of_string_of_list_ascii.
    apply strip_chars_Forall.
    pose proof (split_go_newline_free (list_ascii_of_string text) None 0 []
                  (List.Forall_nil _)) as Hall.
    rewrite List.Forall_forall in Hall. now apply Hall.
Qed.

Lemma split_go_no_space rest : forall prev cur,
  Forall (fun c => isspace c = false) rest ->
  split_go prev 0 cur rest = [rev cur ++ rest].
Proof.
  induction rest as [|c rest IH]; intros prev cur Hrest; cbn [split_go].
  - now rewrite app_nil_r.
  - inversion Hrest as [|? ? Hc Hrest']; subst.
    assert (Em : match_len prev (c :: rest) = None).
    { destruct (match_len prev (c :: rest)) as [n|] eqn:Em; [|reflexivity].
      pose proof (match_len_positive _ _ _ Em) as Hpos.
      apply match_len_bound in Em. simpl in Em. rewrite Hc in Em. lia. }
    rewrite Em, IH by assumption. cbn [rev]. now rewrite <- app_assoc.
Qed.

Lemma strip_chars_no_space l :
  Forall (fun c => isspace c = false) l -> strip_chars l = l.
Proof.
  intros Hl. unfold strip_chars, rstrip_chars, lstrip_chars.
  assert (Hdw : forall m, Forall (fun c => isspace c = false) m ->
                          drop_while isspace m = m).
  { intros m Hm. destruct Hm as [|c m Hc _]; simpl; [reflexivity|]. now rewrite Hc. }
  rewrite (Hdw l Hl), (Hdw (rev l)) by now apply List.Forall_rev.
  apply rev_involutive.
Qed.

(** X4.  A non-empty text without any white space is one sentence, the text
    itself. *)
Theorem split_sentences_single (text : string) :
  text <> "" ->
  Forall (fun c => isspace c = false) (list_ascii_of_string text) ->
  split_sentences text = [text].
Proof.
  intros Hne Hns.
  assert (Hstrip : strip text = text).
  { unfold strip. rewrite (strip_chars_no_space _ Hns).
    apply string_of_list_ascii_of_string. }
  unfold split_sentences, re_split.
  rewrite (split_go_no_space _ None [] Hns). simpl.
  rewrite string_of_list_ascii_of_string, Hstrip.
  apply truthy_true in Hne. rewrite Hne. simpl. now rewrite Hstrip.
Qed.

Lemma split_sentences_single_witness : split_sentences "Hello,world" = ["Hello,world"].
Proof.
  apply split_sentences_single; [discriminate|]. repeat constructor.
Defined.

(* ===================================================================== *)
(** * utils.py: the sentence loop and generate_speech *)
(* ===================================================================== *)

Ltac unfold_M :=
  unfold mbind, M_bind, bind, mret, M_ret, ret, raise, gets, modify, call_out,
    of_result, try_except in *.

Section SpeechFacts.
Context {sample float ext : Type} `{FloatOps float} `{Outside ext sample}.

Local Abbreviation accum := (accum sample float).
Local Abbreviation world := (world sample ext).

Implicit Types (st : accum) (ys : list (list sample)) (w : world)
         (cs : list (chunk float)) (c : chunk float).

(** *** Taking segments *)

Lemma take_all_segments ys : forall st,
  audio_segments (fold_left take_segment ys st) = audio_segments st ++ ys.
Proof.
  induction ys as [|y ys IH]; intros st; simpl.
  - now rewrite app_nil_r.
  - rewrite IH. simpl. now rewrite <- app_assoc.
Qed.

Lemma take_all_timings ys : forall st,
  exists later,
    chunk_timings (fold_left take_segment ys st) = chunk_timings st ++ later
    /\ length later = length ys.
Proof.
  induction ys as [|y ys IH]; intros st; simpl.
  - exists []. now rewrite app_nil_r.
  - destruct (IH (take_segment st y)) as (later & E & L).
    eexists (_ :: later). split.
    + rewrite E. simpl. rewrite <- app_assoc. reflexivity.
    + simpl. now rewrite L.
Qed.

Lemma take_all_same_length ys : forall st,
  length (chunk_timings st) = length (audio_segments st) ->
  length (chunk_timings (fold_left take_segment ys st))
  = length (audio_segments (fold_left take_segment ys st)).
Proof.
  intros st E. destruct (take_all_timings ys st) as (later & -> & L).
  rewrite take_all_segments, !length_app. lia.
Qed.

(** *** Timings form a chain *)

Lemma chain_snoc t0 cs t1 c :
  chain t0 cs t1 -> chunk_start c = t1 -> chain t0 (cs ++ [c]) (chunk_end c).
Proof.
  induction 1 as [t|t c0 cs t' E _ IH]; intros Ec; simpl.
  - apply chain_cons; [exact Ec | apply chain_nil].
  - apply chain_cons; [exact E | now apply IH].
Qed.

Lemma chain_adjacent t0 cs t1 :
  chain t0 cs t1 ->
  forall i a b, cs !! i = Some a -> cs !! S i = Some b ->
                chunk_end a = chunk_start b.
Proof.
  induction 1 as [t|t c cs t' E Hc IH]; intros i a b Ha Hb.
  - discriminate.
  - destruct i as [|i]; simpl in *.
    + injection Ha as <-. inversion Hc; subst; simpl in *; congruence.
    + eapply IH; eassumption.
Qed.

Lemma chain_head t0 cs t1 :
  chain t0 cs t1 -> forall c, cs !! 0 = Some c -> chunk_start c = t0.
Proof. destruct 1; simpl; intros c0 E; congruence. Qed.

Lemma take_segment_chained st y : chained st -> chained (take_segment st y).
Proof. intros Hc. unfold chained, take_segment. simpl.
  exact (chain_snoc _ _ _ (Chunk (current_time st) _) Hc eq_refl).
Qed.

Lemma take_all_chained ys : forall st, chained st -> chained (fold_left take_segment ys st).
Proof.
  induction ys as [|y ys IH]; intros st Hc; simpl; [exact Hc|].
  apply IH, take_segment_chained, Hc.
Qed.

Lemma take_all_timings_from ys : forall st,
  chunk_timings (fold_left take_segment ys st)
  = chunk_timings st ++ timings_from (current_time st) ys.
Proof.
  induction ys as [|y ys IH]; intros st; simpl.
  - now rewrite app_nil_r.
  - rewrite IH. simpl. now rewrite <- app_assoc.
Qed.

(** *** Saving the audio *)

Lemma find_put_same name frames (es : list (string * node sample)) :
  find_entry name (put_file name frames es) = Some (File frames).
Proof.
  induction es as [|[n x] es IH]; simpl.
  - now rewrite String.eqb_refl.
  - destruct (String.eqb n name) eqn:E; simpl; rewrite E; [reflexivity | exact IH].
Qed.

Lemma find_put_other name name' frames (es : list (string * node sample)) :
  name' <> name ->
  find_entry name' (put_file name frames es) = find_entry name' es.
Proof.
  intros Hne. induction es as [|[n x] es IH]; simpl.
  - destruct (String.eqb_spec name name'); [congruence | reflexivity].
  - destruct (String.eqb_spec n name) as [->|_]; simpl.
    + destruct (String.eqb_spec name name'); [congruence | reflexivity].
    + now rewrite IH.
Qed.

Lemma save_audio_ok (p : path) segs w :
  writable p segs w ->
  save_audio p segs w
  = (Ok (int_truediv
           (Z.of_nat (length (sf_encode (basename p) (concat segs)))) SAMPLE_RATE),
     set_fs (store_after_write p (concat segs) (fs w)) w).
Proof.
  intros (Hcat & Hd & Hmk & Hfmt & Hwr & Hop & Hfree).
  unfold save_audio, torch_cat, makedirs, sf_write, sf_frames, store_after_write.
  unfold_M. rewrite Hcat. apply truthy_true in Hd. rewrite Hd, Hfmt. simpl.
  destruct (fs w !! dirname p) as [es|] eqn:Edir; simpl.
  - rewrite Hwr, Edir. specialize (Hfree es eq_refl).
    destruct (find_entry (basename p) es) as [[frames|]|] eqn:Ef;
      try congruence; simpl; rewrite Hop, lookup_insert_eq, find_put_same; reflexivity.
  - rewrite (Hmk eq_refl). simpl. rewrite Hwr, lookup_insert_eq. simpl.
    rewrite Hop, lookup_insert_eq. simpl.
    rewrite String.eqb_refl. now rewrite insert_insert_eq.
Qed.

Lemma save_audio_returns (p : path) segs w dur w' :
  save_audio p segs w = (Ok dur, w') -> writable p segs w.
Proof.
  unfold save_audio, torch_cat, makedirs, sf_write, sf_frames, writable.
  unfold_M.
  destruct (cat_error segs); [discriminate|].
  destruct (truthy (dirname p)) eqn:Hd; [|discriminate].
  apply truthy_true in Hd.
  destruct (fs w !! dirname p) as [es|] eqn:Edir; simpl.
  - destruct (known_format (basename p)); [|discriminate]. simpl.
    destruct (io_error (WriteFile p) (outside w)); [discriminate|].
    rewrite Edir.
    destruct (find_entry (basename p) es) as [[frames|]|] eqn:Ef; [|discriminate|];
      simpl; (destruct (io_error (OpenFile p) (outside w)); [discriminate|]);
      intros _; repeat split; auto; try discriminate;
      intros es' [= <-]; congruence.
  - destruct (io_error (Makedirs (dirname p)) (outside w)); [discriminate|]. simpl.
    destruct (known_format (basename p)); [|discriminate]. simpl.
    destruct (io_error (WriteFile p) (outside w)); [discriminate|].
    rewrite lookup_insert_eq. simpl.
    destruct (io_error (OpenFile p) (outside w)); [discriminate|].
    intros _. repeat split; auto; discriminate.
Qed.

(** *** The loop *)

Variable pl : pipeline ext sample.
Variable voice : string.

(** The loop does nothing but take, in order, what the pipeline calls
    yield; whether a call ended in an exception makes no difference. *)
Lemma synth_loop_fold sentences : forall st x,
  fst (synth_loop pl voice sentences st x)
  = fold_left take_segment
      (concat (map yielded (loop_outcomes pl voice sentences x))) st.
Proof.
  induction sentences as [|s rest IH]; intros st x; simpl; [reflexivity|].
  destruct (negb (truthy (strip s))); [apply IH|].
  destruct (pl (strip s) voice x) as [o x'] eqn:E. simpl.
  rewrite fold_left_app.
  destruct (raised o); apply IH.
Qed.

Lemma synth_loop_app pre post : forall st x,
  synth_loop pl voice (pre ++ post) st x
  = let '(st1, x1) := synth_loop pl voice pre st x in
    synth_loop pl voice post st1 x1.
Proof.
  induction pre as [|s pre IH]; intros st x; simpl; [reflexivity|].
  destruct (negb (truthy (strip s))); [apply IH|].
  destruct (pl (strip s) voice x) as [o x'].
  destruct (raised o); apply IH.
Qed.

Lemma synth_loop_chained sentences st x :
  chained st -> chained (fst (synth_loop pl voice sentences st x)).
Proof. rewrite synth_loop_fold. apply take_all_chained. Qed.

Lemma accum_init_chained : chained (accum_init : accum).
Proof. apply chain_nil. Qed.

(** *** generate_speech *)

Variables (text : string) (output_path : path).

Local Abbreviation loop_exit := (loop_exit pl voice text).

(** [generate_speech] with its steps laid out. *)
Lemma generate_speech_steps w :
  generate_speech text voice output_path pl w
  = if espeak_data_exists (outside w) then
      let w1 := set_espeak_wrapper_data_path (Some ESPEAK_DATA_PATH) w in
      match (if voice_file_exists voice (outside w) then (Ok tt, outside w)
             else hf_hub_download ("voices/" +:+ voice +:+ ".pt") (outside w)) with
      | (Raise e, x) => (Raise e, set_outside x w1)
      | (Ok _, x) =>
          let '(st, x') := synth_loop pl voice (split_sentences text) accum_init x in
          match audio_segments st with
          | [] => (Raise (Exn RuntimeError "No audio segments generated"),
                   set_outside x' w1)
          | _ :: _ =>
              match save_audio output_path (audio_segments st) (set_outside x' w1) with
              | (Ok dur, w3) => (Ok (audio_segments st, chunk_timings st, dur), w3)
              | (Raise e, w3) => (Raise e, w3)
              end
          end
      end
    else (Raise (Exn FileNotFoundError
                   ("espeak-ng data path not found at " +:+ ESPEAK_DATA_PATH)), w).
Proof.
  unfold generate_speech, save_audio, run_synth_loop. unfold_M. simpl.
  destruct (espeak_data_exists (outside w)); simpl; [|reflexivity].
  destruct (voice_file_exists voice (outside w)); simpl.
  - destruct (synth_loop _ _ _ _ _) as [st x']. simpl.
    destruct (audio_segments st); [reflexivity|].
    destruct (torch_cat _ _) as [[?|?] ?]; [|reflexivity].
    destruct (makedirs _ _) as [[[]|?] ?]; [|reflexivity].
    destruct (sf_write _ _ _) as [[[]|?] ?]; [|reflexivity].
    now destruct (sf_frames _ _) as [[?|?] ?].
  - destruct (hf_hub_download _ _) as [[[]|?] x]; simpl; [|reflexivity].
    destruct (synth_loop _ _ _ _ _) as [st x']. simpl.
    destruct (audio_segments st); [reflexivity|].
    destruct (torch_cat _ _) as [[?|?] ?]; [|reflexivity].
    destruct (makedirs _ _) as [[[]|?] ?]; [|reflexivity].
    destruct (sf_write _ _ _) as [[[]|?] ?]; [|reflexivity].
    now destruct (sf_frames _ _) as [[?|?] ?].
Qed.

Lemma voice_step_available w :
  voice_available voice w ->
  (if voice_file_exists voice (outside w) then (Ok tt, outside w)
   else hf_hub_download ("voices/" +:+ voice +:+ ".pt") (outside w))
  = (Ok tt, loop_entry voice w).
Proof.
  unfold voice_available, loop_entry.
  destruct (voice_file_exists voice (outside w)); [reflexivity|].
  intros [?|E]; [discriminate|].
  destruct (hf_hub_download _ _) as [[[]|e] x]; [reflexivity | discriminate].
Qed.

(** Once the loop is reached, the call is the loop followed by the saving
    of what it gathered. *)
Lemma generate_speech_from_loop w :
  espeak_data_exists (outside w) = true ->
  voice_available voice w ->
  generate_speech text voice output_path pl w
  = match audio_segments (loop_exit w) with
    | [] => (Raise (Exn RuntimeError "No audio segments generated"),
             loop_world pl voice text w)
    | _ :: _ =>
        match save_audio output_path (audio_segments (loop_exit w))
                (loop_world pl voice text w) with
        | (Ok dur, w3) =>
            (Ok (audio_segments (loop_exit w), chunk_timings (loop_exit w), dur), w3)
        | (Raise e, w3) => (Raise e, w3)
        end
    end.
Proof.
  intros He Hv. rewrite generate_speech_steps, He. cbv zeta.
  rewrite (voice_step_available w Hv). unfold loop_exit, loop_world.
  now destruct (synth_loop pl voice (split_sentences text) accum_init (loop_entry voice w))
    as [st x'].
Qed.

(** A call that returns has run the loop and returns its accumulators. *)
Lemma generate_speech_returns w segs timings dur w' :
  generate_speech text voice output_path pl w = (Ok (segs, timings, dur), w') ->
  segs = audio_segments (loop_exit w)
  /\ timings = chunk_timings (loop_exit w)
  /\ segs <> []
  /\ espeak_data_exists (outside w) = true
  /\ voice_available voice w.
Proof.
  rewrite generate_speech_steps. unfold loop_exit, loop_entry, voice_available.
  destruct (espeak_data_exists (outside w)); [|discriminate]. cbv zeta.
  destruct (voice_file_exists voice (outside w)).
  - destruct (synth_loop _ _ _ _ _) as [st x]. simpl.
    destruct (audio_segments st) eqn:Es; [discriminate|].
    destruct (save_audio _ _ _) as [[?|?] ?]; [|discriminate].
    intros [= <- <- <- <-]. repeat split; auto; discriminate.
  - destruct (hf_hub_download _ _) as [[[]|?] x0]; simpl; [|discriminate].
    destruct (synth_loop _ _ _ _ _) as [st x]. simpl.
    destruct (audio_segments st) eqn:Es; [discriminate|].
    destruct (save_audio _ _ _) as [[?|?] ?]; [|discriminate].
    intros [= <- <- <- <-]. repeat split; auto; discriminate.
Qed.

Lemma loop_exit_outcomes w :
  loop_exit w
  = fold_left take_segment
      (concat (map yielded
         (loop_outcomes pl voice (split_sentences text) (loop_entry voice w))))
      accum_init.
Proof. apply synth_loop_fold. Qed.

Lemma concat_all_nil (l : list (outcome sample)) :
  Forall (fun o => yielded o = []) l -> concat (map yielded l) = [].
Proof. induction 1 as [|o l E _ IH]; simpl; [reflexivity|]. now rewrite E, IH. Qed.

Lemma count_one_per_success (l : list (outcome sample)) :
  Forall (fun o => length (yielded o) = if succeeded o then 1 else 0) l ->
  length (concat (map yielded l)) = length (List.filter succeeded l).
Proof.
  induction 1 as [|o l E _ IH]; simpl; [reflexivity|].
  rewrite length_app, IH, E. now destruct (succeeded o).
Qed.

(** C1 (as amended).  When [generate_speech] returns, there is one chunk
    timing per audio segment: as many as the pipeline yielded over all the
    non-blank sentences, the segments a sentence yielded before it failed
    included.  That is the number of sentences synthesized without error
    when every such sentence yields exactly one segment and every failing
    sentence yields none. *)
Theorem chunk_timings_one_per_segment w segs timings dur w' :
  generate_speech text voice output_path pl w = (Ok (segs, timings, dur), w') ->
  let outcomes :=
    loop_outcomes pl voice (split_sentences text) (loop_entry voice w) in
  length timings = length segs
  /\ length timings = list_sum (map (fun o => length (yielded o)) outcomes)
  /\ (Forall (fun o => length (yielded o) = if succeeded o then 1 else 0) outcomes ->
      length timings = length (List.filter succeeded outcomes)).
Proof.
  intros Hret outcomes.
  destruct (generate_speech_returns _ _ _ _ _ Hret) as (-> & -> & _).
  rewrite loop_exit_outcomes. fold outcomes.
  destruct (take_all_timings (concat (map yielded outcomes)) accum_init)
    as (later & -> & L).
  rewrite take_all_segments. simpl. rewrite L. repeat split.
  - rewrite length_concat, map_map. reflexivity.
  - apply count_one_per_success.
Qed.

(** C7.  When [generate_speech] returns, its chunk timings are contiguous:
    there is a first chunk and it starts at [0.0], and each chunk ends
    exactly where the next one starts. *)
Theorem chunk_timings_contiguous w segs timings dur w' :
  generate_speech text voice output_path pl w = (Ok (segs, timings, dur), w') ->
  (exists c, timings !! 0 = Some c /\ chunk_start c = fzero)
  /\ (forall i a b,
         timings !! i = Some a -> timings !! S i = Some b ->
         chunk_end a = chunk_start b).
Proof.
  intros Hret.
  destruct (generate_speech_returns _ _ _ _ _ Hret) as (Es & Et & Hne & _).
  assert (Hc : chained (loop_exit w))
    by apply synth_loop_chained, accum_init_chained.
  assert (Hl : length timings = length segs).
  { subst. unfold loop_exit. rewrite synth_loop_fold.
    apply take_all_same_length. reflexivity. }
  unfold chained in Hc. rewrite <- Et in Hc. split.
  - destruct timings as [|c cs].
    + destruct segs; [congruence | discriminate].
    + exists c. split; [reflexivity|]. eapply chain_head; [exact Hc | reflexivity].
  - eapply chain_adjacent, Hc.
Qed.

(** C2.  A sentence on which the pipeline raises does not stop
    [generate_speech]: its loop goes on with the sentences after it, from
    the accumulators as they were when the exception came.  The loop ends
    with the segments gathered before the failing sentence, those the
    failing sentence yielded before it failed and those of the later
    sentences, in that order, and with one timing for each of them, the
    earlier timings first and the later ones following on from the time
    reached.  These are the segments and timings [generate_speech] returns,
    and it does return them whenever it reaches its loop, there is a segment
    at all and the audio can be saved. *)
Theorem failed_sentence_is_skipped w pre s post st1 x1 o x2 e :
  split_sentences text = pre ++ s :: post ->
  synth_loop pl voice pre accum_init (loop_entry voice w) = (st1, x1) ->
  strip s <> "" ->
  pl (strip s) voice x1 = (o, x2) ->
  raised o = Some e ->
  let later := yielded o ++ concat (map yielded (loop_outcomes pl voice post x2)) in
  let segs := audio_segments st1 ++ later in
  let timings := chunk_timings st1 ++ timings_from (current_time st1) later in
  synth_loop pl voice (split_sentences text) accum_init (loop_entry voice w)
  = synth_loop pl voice post (fold_left take_segment (yielded o) st1) x2
  /\ audio_segments (loop_exit w) = segs
  /\ chunk_timings (loop_exit w) = timings
  /\ (forall r w', generate_speech text voice output_path pl w = (Ok r, w') ->
                   exists dur, r = (segs, timings, dur))
  /\ (espeak_data_exists (outside w) = true ->
      voice_available voice w ->
      segs <> [] ->
      writable output_path segs (loop_world pl voice text w) ->
      exists dur w',
        generate_speech text voice output_path pl w = (Ok (segs, timings, dur), w')).
Proof.
  intros Hsplit Hpre Hs Ho He later segs timings.
  assert (Hstep : synth_loop pl voice (split_sentences text) accum_init
                    (loop_entry voice w)
                  = synth_loop pl voice post (fold_left take_segment (yielded o) st1) x2).
  { rewrite Hsplit, synth_loop_app, Hpre. simpl.
    apply truthy_true in Hs. rewrite Hs. simpl. rewrite Ho, He. reflexivity. }
  assert (Hexit : loop_exit w = fold_left take_segment later st1).
  { unfold loop_exit. rewrite Hstep, synth_loop_fold.
    subst later. now rewrite fold_left_app. }
  assert (Hsegs : audio_segments (loop_exit w) = segs).
  { rewrite Hexit. apply take_all_segments. }
  assert (Htimes : chunk_timings (loop_exit w) = timings).
  { rewrite Hexit. apply take_all_timings_from. }
  split; [exact Hstep|]. split; [exact Hsegs|]. split; [exact Htimes|]. split.
  - intros [[segs' timings'] dur] w' Hret. exists dur.
    destruct (generate_speech_returns _ _ _ _ _ Hret) as (-> & -> & _).
    now rewrite Hsegs, Htimes.
  - intros Hesp Hv Hne Hw.
    rewrite (generate_speech_from_loop w Hesp Hv), Hsegs, Htimes.
    destruct segs as [|seg rest] eqn:Esegs; [congruence|].
    rewrite (save_audio_ok _ _ _ Hw). eauto.
Qed.

(** C3.  If no pipeline call yields a segment (every sentence fails, or
    there is no sentence to synthesize), [generate_speech] raises and leaves
    the sound-file store as it was; the exception is the
    ["No audio segments generated"] one whenever the call gets as far as
    the sentence loop (the espeak-ng data directory exists and the voice
    file is there or can be fetched). *)
Theorem no_audio_generated w :
  Forall (fun o => yielded o = [])
         (loop_outcomes pl voice (split_sentences text) (loop_entry voice w)) ->
  (exists e, fst (generate_speech text voice output_path pl w) = Raise e)
  /\ fs (snd (generate_speech text voice output_path pl w)) = fs w
  /\ (espeak_data_exists (outside w) = true -> voice_available voice w ->
      fst (generate_speech text voice output_path pl w)
      = Raise (Exn RuntimeError "No audio segments generated")).
Proof.
  intros Hall.
  assert (Hnone : audio_segments (loop_exit w) = []).
  { rewrite loop_exit_outcomes, take_all_segments. simpl.
    now apply concat_all_nil. }
  revert Hnone.
  unfold generate_speech, run_synth_loop, loop_exit, loop_entry, voice_available.
  unfold_M. simpl.
  destruct (espeak_data_exists (outside w)); simpl.
  2:{ intros _. repeat split; eauto; discriminate. }
  destruct (voice_file_exists voice (outside w)); simpl.
  - destruct (synth_loop _ _ _ _ _) as [st x]. simpl. intros ->. simpl.
    repeat split; eauto.
  - destruct (hf_hub_download _ _) as [[[]|e0] x0]; simpl.
    + destruct (synth_loop _ _ _ _ _) as [st x]. simpl. intros ->. simpl.
      repeat split; eauto.
    + intros _. repeat split; eauto. intros _ [?|?]; discriminate.
Qed.

End SpeechFacts.

(** *** The sentence loop on concrete inputs *)

Import Toy.

Lemma chunk_timings_one_per_segment_witness :
  match fst (generate_speech "Hello world. Goodbye now." "af_heart" out_wav speak
               (fresh good_host)) with
  | Ok (segs, timings, _) => length timings = length segs
  | Raise _ => False
  end.
Proof.
  destruct (generate_speech "Hello world. Goodbye now." "af_heart" out_wav speak
              (fresh good_host)) as [[[[segs timings] dur]|e] w'] eqn:E.
  - exact (proj1 (chunk_timings_one_per_segment _ _ _ _ _ _ _ _ _ E)).
  - vm_compute in E. discriminate.
Defined.

(** C1 as stated fails.  One sentence, synthesized without error in two
    segments, gives two chunk timings; and a sentence that fails after a
    first segment gives one chunk timing although no sentence was
    synthesized without error. *)
Lemma chunk_timings_not_one_per_sentence :
  (exists segs timings dur w',
      generate_speech "This sentence is long enough for two." "af_heart" out_wav
        speak (fresh good_host) = (Ok (segs, timings, dur), w')
      /\ length timings = 2
      /\ length (List.filter succeeded
           (loop_outcomes speak "af_heart"
              (split_sentences "This sentence is long enough for two.")
              (loop_entry "af_heart" (fresh good_host)))) = 1
      /\ length timings
         <> length (List.filter succeeded
              (loop_outcomes speak "af_heart"
                 (split_sentences "This sentence is long enough for two.")
                 (loop_entry "af_heart" (fresh good_host)))))
  /\ (exists segs timings dur w',
      generate_speech "Half?" "af_heart" out_wav speak (fresh good_host)
      = (Ok (segs, timings, dur), w')
      /\ length timings = 1
      /\ length (List.filter succeeded
           (loop_outcomes speak "af_heart" (split_sentences "Half?")
              (loop_entry "af_heart" (fresh good_host)))) = 0).
Proof.
  split; eexists _, _, _, _; (split; [vm_compute; reflexivity|]).
  - split; [reflexivity|]. split; [reflexivity|]. vm_compute. lia.
  - split; reflexivity.
Qed.

Lemma chunk_timings_contiguous_witness :
  match fst (generate_speech "One. Two. Three." "af_heart" out_wav speak
               (fresh good_host)) with
  | Ok (_, timings, _) =>
      forall i a b, timings !! i = Some a -> timings !! S i = Some b ->
                    chunk_end a = chunk_start b
  | Raise _ => False
  end.
Proof.
  destruct (generate_speech "One. Two. Three." "af_heart" out_wav speak
              (fresh good_host)) as [[[[segs timings] dur]|e] w'] eqn:E.
  - exact (proj2 (chunk_timings_contiguous _ _ _ _ _ _ _ _ _ E)).
  - vm_compute in E. discriminate.
Defined.

Example three_sentences_timings :
  fst (generate_speech "One. Two. Three." "af_heart" out_wav speak (fresh good_host))
  = Ok ([[0; 0; 0; 0]; [0; 0; 0; 0]; [0; 0; 0; 0; 0; 0]]%Z,
        [Chunk 0 (1 # 6000); Chunk (1 # 6000) (1 # 3000);
         Chunk (1 # 3000) (7 # 12000)]%Q,
        (7 # 12000)%Q).
Proof. vm_compute. reflexivity. Qed.

Lemma failed_sentence_is_skipped_witness :
  exists dur w',
    generate_speech "Hello. Why? Bye." "af_heart" out_wav speak (fresh good_host)
    = (Ok ([[0; 0; 0; 0; 0; 0]; [0; 0; 0; 0]; [0; 0; 0; 0]]%Z,
           [Chunk 0 (1 # 4000); Chunk (1 # 4000) (1 # 2400);
            Chunk (1 # 2400) (7 # 12000)]%Q,
           dur), w').
Proof.
  refine (proj2 (proj2 (proj2 (proj2
            (failed_sentence_is_skipped speak "af_heart" "Hello. Why? Bye." out_wav
               (fresh good_host) ["Hello."] "Why?" ["Bye."]
               (take_segment accum_init (repeat 0%Z 6)) good_host
               (Outcome [repeat 0%Z 4] (Some (Exn ExternalError "synthesis failed")))
               good_host (Exn ExternalError "synthesis failed") _ _ _ _ _)))) _ _ _ _).
  - vm_compute. reflexivity.
  - vm_compute. reflexivity.
  - vm_compute. discriminate.
  - reflexivity.
  - reflexivity.
  - reflexivity.
  - left. vm_compute. reflexivity.
  - vm_compute. discriminate.
  - repeat split; try (vm_compute; reflexivity); discriminate.
Defined.

Example speech_survives_failed_sentence :
  fst (generate_speech "Hello. Bad! Bye." "af_heart" out_wav speak (fresh good_host))
  = Ok ([[0; 0; 0; 0; 0; 0]; [0; 0; 0; 0]]%Z,
        [Chunk 0 (1 # 4000); Chunk (1 # 4000) (1 # 2400)]%Q,
        (1 # 2400)%Q).
Proof. vm_compute. reflexivity. Qed.

Lemma no_audio_generated_witness :
  fst (generate_speech "Bad! Worse!" "af_heart" out_wav speak (fresh good_host))
  = Raise (Exn RuntimeError "No audio segments generated").
Proof.
  refine (proj2 (proj2 (no_audio_generated speak "af_heart" "Bad! Worse!" out_wav
                          (fresh good_host) _)) _ _).
  - vm_compute. repeat constructor.
  - reflexivity.
  - left. vm_compute. reflexivity.
Defined.

(* ===================================================================== *)
(** * views.py: request parsing and voice padding *)
(* ===================================================================== *)

Lemma last_any_default {A} (l : list A) : forall (v d d' : A),
  List.last (v :: l) d = List.last (v :: l) d'.
Proof.
  induction l as [|x l IH]; intros v d d'; [reflexivity|].
  change (List.last (x :: l) d = List.last (x :: l) d'). apply IH.
Qed.


(** The value that pads the voices list is the last voice supplied, or
    ["af_heart"] when none was. *)
Lemma pad_voices_app (voices : list string) (n : nat) :
  length voices <> n ->
  pad_voices voices n
  = voices ++ repeat (List.last voices "af_heart") (n - length voices).
Proof.
  intros Hn. unfold pad_voices.
  destruct (Nat.eqb_spec (length voices) n) as [E|_]; [contradiction|].
  destruct voices as [|v vs]; [reflexivity|].
  now rewrite (last_any_default vs v v "af_heart").
Qed.



Example pad_voices_two_of_four :
  pad_voices ["am_adam"; "bf_emma"] 4 = ["am_adam"; "bf_emma"; "bf_emma"; "bf_emma"].
Proof. reflexivity. Qed.

Example pad_voices_none_of_two : pad_voices [] 2 = ["af_heart"; "af_heart"].
Proof. reflexivity. Qed.

(** The request never leaves the voices list empty, and a longer voices list
    is left as it is. *)
Lemma request_voices_nonempty post : request_voices post <> [].
Proof. unfold request_voices. destruct (getlist "voice[]" post); discriminate. Qed.

Lemma pad_voices_long (voices : list string) (n_texts : nat) :
  n_texts <= length voices -> pad_voices voices n_texts = voices.
Proof.
  intros Hle. unfold pad_voices.
  destruct (Nat.eqb_spec (length voices) n_texts); [reflexivity|].
  replace (n_texts - length voices) with 0 by lia. apply app_nil_r.
Qed.

Lemma pad_voices_length (voices : list string) (n_texts : nat) :
  n_texts <= length (pad_voices voices n_texts).
Proof.
  destruct (Nat.le_gt_cases n_texts (length voices)) as [Hle|Hlt].
  - now rewrite pad_voices_long.
  - rewrite pad_voices_app, length_app, repeat_length by lia. lia.
Qed.

(** Every text of the request gets a voice: the loop runs once per text. *)
Lemma request_pairs_texts post : map fst (request_pairs post) = request_texts post.
Proof.
  unfold request_pairs.
  assert (Hlen := pad_voices_length (request_voices post) (length (request_texts post))).
  revert Hlen. generalize (pad_voices (request_voices post) (length (request_texts post))).
  induction (request_texts post) as [|t ts IH]; intros [|v vs] Hlen; simpl in *;
    try reflexivity; try lia.
  f_equal. apply IH. lia.
Qed.

(* ===================================================================== *)
(** * views.py: the generate view, its guard *)
(* ===================================================================== *)

Section GuardFacts.
Context {sample float ext : Type} `{FloatOps float} `{Outside ext sample}.

Local Abbreviation world := (world sample ext).
Implicit Types (w : world) (post : list (string * string)).

Lemma any_stripped_blank (ts : list string) :
  Forall (fun t => strip t = "") ts -> any_stripped (map Some ts) = Ok false.
Proof. induction 1 as [|t ts E _ IH]; simpl; [reflexivity|]. now rewrite E. Qed.

Lemma no_text_blank (ts : list string) :
  Forall (fun t => strip t = "") ts -> no_text (map Some ts) = Ok true.
Proof.
  intros Hall. unfold no_text. rewrite (any_stripped_blank ts Hall).
  now destruct ts.
Qed.

(** When text fields were submitted and all of them are blank, the view
    answers 400 and nothing else happens. *)
Lemma generate_blank_texts post (ts : list string) w :
  request_texts post = map Some ts ->
  Forall (fun t => strip t = "") ts ->
  generate (Request "POST" post) w
  = (Ok (Response (ErrorBody "No text provided") 400), w).
Proof.
  intros Ets Hall. unfold generate. simpl. unfold_M.
  rewrite Ets, (no_text_blank ts Hall). reflexivity.
Qed.

(** C5, where the code departs from it.  A POST that carries no field
    [text[]] and no field [text] is not answered with 400: [texts] is
    [[None]], the guard itself raises on [None.strip()], and the view
    answers 500 with the text of that exception.  (No synthesis is
    attempted: the world is left as it was.) *)
Theorem generate_without_text_field post w :
  getlist "text[]" post = [] ->
  getlist "text" post = [] ->
  generate (Request "POST" post) w
  = (Ok (Response (ErrorBody "'NoneType' object has no attribute 'strip'") 500), w).
Proof.
  intros E1 E2. unfold generate, request_texts, get. simpl. unfold_M.
  rewrite E1, E2. reflexivity.
Qed.

End GuardFacts.

Lemma generate_without_text_field_witness :
  generate (Request "POST" [("voice[]", "af_heart")]) (fresh good_host)
  = (Ok (Response (ErrorBody "'NoneType' object has no attribute 'strip'") 500),
     fresh good_host).
Proof.
  apply (generate_without_text_field (float := Q)); reflexivity.
Defined.

Example generate_blank_text_400 :
  generate (Request "POST" [("text[]", "  "); ("text[]", "")]) (fresh good_host)
  = (Ok (Response (ErrorBody "No text provided") 400), fresh good_host).
Proof.
  apply (generate_blank_texts (float := Q) _ ["  "; ""]); [reflexivity|].
  repeat constructor.
Qed.

(* ===================================================================== *)
(** * views.py: the pipeline cache *)
(* ===================================================================== *)

Create HintDb ready.
Create HintDb footprint.

Section CacheFacts.
Context {sample float ext : Type} `{FloatOps float} `{Outside ext sample}.

Local Abbreviation world := (world sample ext).
Local Abbreviation M := (M sample ext).
Implicit Types (w : world).

(** *** Computations that leave a ready handle alone *)

Lemma keeps_ready_ret {A} (a : A) : keeps_ready (mret a : M A).
Proof. intros w p E. exact E. Qed.

Lemma keeps_ready_raise {A} e : keeps_ready (raise e : M A).
Proof. intros w p E. exact E. Qed.

Lemma keeps_ready_gets {A} (f : world -> A) : keeps_ready (gets f).
Proof. intros w p E. exact E. Qed.

Lemma keeps_ready_of_result {A} (r : result A) : keeps_ready (of_result r : M A).
Proof. intros w p E. exact E. Qed.

Lemma keeps_ready_modify (f : world -> world) :
  (forall w, kokoro_pipeline (f w) = kokoro_pipeline w) -> keeps_ready (modify f).
Proof. intros Hf w p E. simpl. now rewrite Hf. Qed.

Lemma keeps_ready_call_out {A} (f : ext -> result A * ext) :
  keeps_ready (call_out f : M A).
Proof. intros w p E. unfold call_out. now destruct (f (outside w)). Qed.

Lemma keeps_ready_bind {A B} (m : M A) (k : A -> M B) :
  keeps_ready m -> (forall a, keeps_ready (k a)) -> keeps_ready (m ≫= k).
Proof.
  intros Hm Hk w p E. unfold_M. specialize (Hm w p E).
  destruct (m w) as [[a|e] w1]; simpl in *; [now apply Hk | exact Hm].
Qed.

Lemma keeps_ready_try {A} (m : M A) (h : exn -> M A) :
  keeps_ready m -> (forall e, keeps_ready (h e)) -> keeps_ready (try_except m h).
Proof.
  intros Hm Hh w p E. unfold_M. specialize (Hm w p E).
  destruct (m w) as [[a|e] w1]; simpl in *; [exact Hm | now apply Hh].
Qed.

Lemma keeps_ready_store {A} (m : M A) :
  (forall w, kokoro_pipeline (snd (m w)) = kokoro_pipeline w) -> keeps_ready m.
Proof. intros Hm w p E. now rewrite Hm. Qed.

Lemma keeps_ready_makedirs d : keeps_ready (makedirs d : M unit).
Proof.
  apply keeps_ready_store. intros w. unfold makedirs.
  destruct (truthy d); [|reflexivity].
  destruct (fs w !! d); [reflexivity|]. now destruct (io_error _ _).
Qed.

Lemma keeps_ready_listdir d : keeps_ready (listdir d : M (list string)).
Proof.
  apply keeps_ready_store. intros w. unfold listdir. now destruct (fs w !! d).
Qed.

Lemma keeps_ready_os_remove p : keeps_ready (os_remove p : M unit).
Proof.
  apply keeps_ready_store. intros w. unfold os_remove.
  destruct (fs w !! dirname p); [|reflexivity].
  now destruct (find_entry _ _) as [[]|].
Qed.

Lemma keeps_ready_sf_write p data : keeps_ready (sf_write p data : M unit).
Proof.
  apply keeps_ready_store. intros w. unfold sf_write.
  destruct (known_format _); [|reflexivity]. simpl.
  destruct (io_error _ _); [reflexivity|].
  destruct (fs w !! dirname p); [|reflexivity].
  now destruct (find_entry _ _) as [[]|].
Qed.

Lemma keeps_ready_sf_frames p : keeps_ready (sf_frames p : M Z).
Proof.
  apply keeps_ready_store. intros w. unfold sf_frames.
  destruct (io_error _ _); [reflexivity|].
  destruct (fs w !! dirname p); [|reflexivity].
  now destruct (find_entry _ _) as [[]|].
Qed.

Lemma keeps_ready_torch_cat tensors : keeps_ready (torch_cat tensors : M (list sample)).
Proof.
  apply keeps_ready_store. intros w. unfold torch_cat.
  now destruct (cat_error tensors).
Qed.

Lemma keeps_ready_run_synth_loop (pl : pipeline ext sample) voice sentences :
  keeps_ready (run_synth_loop (float := float) pl voice sentences).
Proof.
  apply keeps_ready_store. intros w. unfold run_synth_loop.
  now destruct (synth_loop _ _ _ _ _).
Qed.

#[local] Hint Resolve keeps_ready_ret keeps_ready_raise keeps_ready_gets
  keeps_ready_of_result keeps_ready_call_out keeps_ready_makedirs
  keeps_ready_listdir keeps_ready_os_remove keeps_ready_sf_write
  keeps_ready_sf_frames keeps_ready_torch_cat keeps_ready_run_synth_loop : ready.

(** One layer of a computation at a time. *)
Ltac ready_step :=
  match goal with
  | |- keeps_ready (_ ≫= _) => apply keeps_ready_bind; [|intros ?]
  | |- keeps_ready (try_except _ _) => apply keeps_ready_try; [|intros ?]
  | |- keeps_ready (modify _) => apply keeps_ready_modify; intros ?; reflexivity
  | |- keeps_ready (path_exists _) => apply keeps_ready_gets
  | |- keeps_ready (match ?x with _ => _ end) => destruct x
  | |- keeps_ready _ => solve [auto with ready]
  end.
Ltac ready := repeat ready_step.

Lemma keeps_ready_generate_speech text voice output_path (pl : pipeline ext sample) :
  keeps_ready (generate_speech (float := float) text voice output_path pl).
Proof. unfold generate_speech. ready. Qed.

(** The initializer returns at once when the handle is there. *)
Lemma initialize_ready w p :
  kokoro_pipeline w = Some p -> initialize_kokoro_pipeline w = (Ok tt, w).
Proof. intros E. unfold initialize_kokoro_pipeline. unfold_M. now rewrite E. Qed.

Lemma keeps_ready_initialize : keeps_ready (initialize_kokoro_pipeline : M unit).
Proof. intros w p E. now rewrite (initialize_ready w p E). Qed.

#[local] Hint Resolve keeps_ready_generate_speech keeps_ready_initialize : ready.

Lemma keeps_ready_once text voice output_path :
  keeps_ready (generate_audio_for_sentence_once (float := float) text voice output_path).
Proof. unfold generate_audio_for_sentence_once. ready. Qed.

Lemma keeps_ready_retry {A} (f : M A) n : keeps_ready f -> keeps_ready (retry_more n f).
Proof. intros Hf. induction n as [|n IH]; simpl; [exact Hf|]. ready; assumption. Qed.

Lemma keeps_ready_generate_audio text voice output_path :
  keeps_ready (generate_audio_for_sentence (float := float) text voice output_path).
Proof. apply keeps_ready_retry, keeps_ready_once. Qed.

#[local] Hint Resolve keeps_ready_generate_audio : ready.

Lemma keeps_ready_generate_loop pairs : forall results : list (synthesis float),
  keeps_ready (generate_loop pairs results).
Proof.
  induction pairs as [|[text voice] rest IH]; intros results; simpl; ready; apply IH.
Qed.

#[local] Hint Resolve keeps_ready_generate_loop : ready.

Lemma keeps_ready_generate request : keeps_ready (generate (float := float) request).
Proof. unfold generate. ready. Qed.

Lemma keeps_ready_remove_wav_files names :
  keeps_ready (remove_wav_files names : M unit).
Proof. induction names as [|n names IH]; simpl; ready; apply IH. Qed.

#[local] Hint Resolve keeps_ready_remove_wav_files : ready.

Lemma keeps_ready_cleanup request :
  keeps_ready (cleanup_audio request : M (JsonResponse float)).
Proof. unfold cleanup_audio. ready. Qed.

Lemma process_step_ready w w' p :
  process_step (float := float) w w' ->
  kokoro_pipeline w = Some p -> kokoro_pipeline w' = Some p.
Proof.
  destruct 1 as [request w|request w|x w]; intros E.
  - now apply keeps_ready_generate.
  - now apply keeps_ready_cleanup.
  - exact E.
Qed.

(** *** The initializer from the uninitialized state *)

Lemma initialize_cold w :
  kokoro_pipeline w = None ->
  let w1 := set_environ (<["ESPEAK_DATA_PATH" := ESPEAK_DATA_PATH]> (environ w)) w in
  initialize_kokoro_pipeline w
  = match construct_pipeline (outside w) with
    | (Ok p, x) => (Ok tt, set_kokoro_pipeline (Some p) (set_outside x w1))
    | (Raise e, x) => (Raise e, set_kokoro_pipeline None (set_outside x w1))
    end.
Proof.
  intros E. unfold initialize_kokoro_pipeline, construct_pipeline. unfold_M.
  rewrite E. simpl.
  destruct (hf_hub_download MODEL_PATH (outside w)) as [[[]|e] x]; simpl; [|reflexivity].
  now destruct (KPipeline x) as [[p|e] x'].
Qed.

(** C8.  The initializer changes nothing when the handle is there.  From
    the uninitialized state, a construction that fails makes it raise the
    very exception of the construction, with the handle still [None]; it
    never raises leaving a handle behind, and it returns only with a handle
    in place.  Whatever the process then does, a handle that is there stays
    there, the same one. *)
Theorem pipeline_cache_lifecycle :
  (forall w p, kokoro_pipeline w = Some p ->
               initialize_kokoro_pipeline w = (Ok tt, w))
  /\ (forall w e, kokoro_pipeline w = None ->
                  fst (construct_pipeline (outside w)) = Raise e ->
                  fst (initialize_kokoro_pipeline w) = Raise e
                  /\ kokoro_pipeline (snd (initialize_kokoro_pipeline w)) = None)
  /\ (forall w e w', initialize_kokoro_pipeline w = (Raise e, w') ->
                     kokoro_pipeline w' = None)
  /\ (forall w w', initialize_kokoro_pipeline w = (Ok tt, w') ->
                   is_Some (kokoro_pipeline w'))
  /\ (forall w w' p, rtc (process_step (float := float)) w w' ->
                     kokoro_pipeline w = Some p -> kokoro_pipeline w' = Some p).
Proof.
  split; [|split; [|split; [|split]]].
  - apply initialize_ready.
  - intros w e E Hfail. rewrite (initialize_cold w E).
    destruct (construct_pipeline (outside w)) as [[p|e'] x]; simpl in *;
      [discriminate|]. split; [congruence | reflexivity].
  - intros w e w'. destruct (kokoro_pipeline w) as [p|] eqn:E.
    + rewrite (initialize_ready w p E). discriminate.
    + rewrite (initialize_cold w E).
      destruct (construct_pipeline (outside w)) as [[p|e'] x]; [discriminate|].
      now intros [= <- <-].
  - intros w w'. destruct (kokoro_pipeline w) as [p|] eqn:E.
    + rewrite (initialize_ready w p E). intros [= <-]. rewrite E. eauto.
    + rewrite (initialize_cold w E).
      destruct (construct_pipeline (outside w)) as [[p|e'] x]; [|discriminate].
      intros [= <-]. simpl. eauto.
  - intros w w' p Hsteps. induction Hsteps as [w|w w1 w2 Hstep _ IH]; intros E.
    + exact E.
    + apply IH. eapply process_step_ready; eassumption.
Qed.

End CacheFacts.

Lemma pipeline_cache_lifecycle_witness :
  fst (initialize_kokoro_pipeline (fresh offline_host))
  = Raise (Exn ExternalError "hub unreachable")
  /\ kokoro_pipeline (snd (initialize_kokoro_pipeline (fresh offline_host))) = None.
Proof.
  apply (proj1 (proj2 (pipeline_cache_lifecycle (float := Q)))); reflexivity.
Defined.

Example initialize_then_ready :
  is_Some (kokoro_pipeline (snd (initialize_kokoro_pipeline (fresh good_host)))).
Proof. vm_compute. eauto. Qed.

(* ===================================================================== *)
(** * views.py: the cleanup view *)
(* ===================================================================== *)

Section CleanupFacts.
Context {sample float ext : Type} `{FloatOps float} `{Outside ext sample}.

Local Abbreviation world := (world sample ext).
Local Abbreviation entries := (list (string * node sample)).
Implicit Types (w : world) (es kept rest tail : entries).


Lemma set_fs_twice f g w : set_fs f (set_fs g w) = set_fs f w.
Proof. reflexivity. Qed.




Lemma keep_non_wav_app es1 es2 :
  keep_non_wav (es1 ++ es2) = keep_non_wav es1 ++ keep_non_wav es2.
Proof. apply List.filter_app. Qed.





Local Abbreviation success :=
  (Response (StatusBody "success" "Audio folder cleaned up") 200 : JsonResponse float).


End CleanupFacts.


Example cleanup_audio_leaves_other_files :
  keep_non_wav [("a.wav", File [1%Z]); ("b.txt", File []); ("d.wav", File [])]
  = [("b.txt", File [])].
Proof. reflexivity. Qed.


(* ===================================================================== *)
(** * views.py: the loop of the generate view *)
(* ===================================================================== *)

Section BatchFacts.
Context {sample float ext : Type} `{FloatOps float} `{Outside ext sample}.

Local Abbreviation world := (world sample ext).
Local Abbreviation M := (M sample ext).
Implicit Types (w : world) (pairs : list (option string * string))
         (results : list (synthesis float)).

(** A blank text costs the loop nothing: it runs as if the pair were not
    in the list. *)
Lemma generate_loop_skips_blank pairs : forall results w,
  generate_loop pairs results w = generate_loop (non_blank_pairs pairs) results w.
Proof.
  induction pairs as [|[[t|] voice] rest IH]; intros results w; simpl;
    [reflexivity| |reflexivity].
  destruct (truthy (strip t)) eqn:Et; simpl.
  - unfold_M. simpl. rewrite Et. simpl.
    destruct (hash_now (strip t) (outside w)) as [h x].
    destruct (generate_audio_for_sentence _ _ _ _) as [[r|e] w1]; [apply IH|reflexivity].
  - unfold_M. simpl. rewrite Et. simpl. apply IH.
Qed.

Lemma bind_returns {A B} (m : M A) (k : A -> M B) w b w' :
  (m ≫= k) w = (Ok b, w') ->
  exists a w1, m w = (Ok a, w1) /\ k a w1 = (Ok b, w').
Proof.
  unfold_M. destruct (m w) as [[a|e] w1]; [eauto|discriminate].
Qed.

(** What an attempt that returns has returned. *)
Lemma generate_audio_once_returns text voice output_path w r w' :
  generate_audio_for_sentence_once text voice output_path w = (Ok r, w') ->
  voice_of r = voice
  /\ audio_url r = "/static/audio/" +:+ basename output_path.
Proof.
  unfold generate_audio_for_sentence_once. intros E.
  do 5 (apply bind_returns in E; destruct E as (? & ? & _ & E)).
  apply bind_returns in E. destruct E as ([[segs timings] dur] & w1 & _ & E).
  unfold_M. now injection E as <- <-.
Qed.

Lemma retry_more_returns {A} (f : M A) n : forall w a w',
  retry_more n f w = (Ok a, w') -> exists w1, f w1 = (Ok a, w').
Proof.
  induction n as [|n IH]; intros w a w'; simpl; [eauto|].
  unfold_M. destruct (f w) as [[a0|e] w1] eqn:E.
  - intros [= <- <-]. eauto.
  - apply IH.
Qed.

Lemma generate_audio_returns text voice output_path w r w' :
  generate_audio_for_sentence text voice output_path w = (Ok r, w') ->
  voice_of r = voice
  /\ audio_url r = "/static/audio/" +:+ basename output_path.
Proof.
  intros E. apply retry_more_returns in E. destruct E as [w1 E].
  eapply generate_audio_once_returns, E.
Qed.

(** The loop appends one entry for each pair that is not blank, in order. *)
Lemma generate_loop_entries pairs : forall results w out w',
  generate_loop pairs results w = (Ok out, w') ->
  exists new, out = results ++ new
              /\ Forall2 entry_for new (non_blank_pairs pairs).
Proof.
  induction pairs as [|[[t|] voice] rest IH]; intros results w out w'; simpl.
  - unfold_M. intros [= <- <-]. exists []. split; [now rewrite app_nil_r|constructor].
  - unfold_M. simpl. destruct (truthy (strip t)) eqn:Et; simpl.
    + destruct (hash_now (strip t) (outside w)) as [h x].
      destruct (generate_audio_for_sentence _ _ _ _) as [[r|e] w1] eqn:Er;
        [|discriminate].
      intros Hrest. destruct (IH _ _ _ _ Hrest) as (new & -> & Hnew).
      exists (r :: new). split; [now rewrite <- app_assoc|].
      constructor; [|exact Hnew].
      destruct (generate_audio_returns _ _ _ _ _ _ Er) as [Hv Hu].
      split; [exact Hv|]. exists t, h, (set_outside x w), w1. simpl.
      repeat split; assumption.
    + apply IH.
  - unfold_M. discriminate.
Qed.

(** A response that carries results comes out of the loop, run on the
    pairs of the request. *)
Lemma generate_results_from_loop request w results w' :
  generate request w = (Ok (Response (AudioUrls results) 200), w') ->
  exists w0, generate_loop (request_pairs (POST request)) [] w0 = (Ok results, w').
Proof.
  unfold generate, request_pairs.
  destruct (negb (String.eqb (method request) "POST")); [discriminate|].
  unfold try_except at 1.
  match goal with
  | |- (let (_, _) := ?body w in _) = _ -> _ =>
      destruct (body w) as [[resp|e] w1] eqn:E; [|discriminate]
  end.
  intros [= -> ->].
  apply bind_returns in E. destruct E as ([|] & ? & _ & E); [discriminate|].
  do 3 (apply bind_returns in E; destruct E as (? & ? & _ & E)).
  apply bind_returns in E. destruct E as (out & w2 & Hloop & E).
  unfold_M. injection E as <- <-. eauto.
Qed.

(** C10.  The loop of [generate] runs as if the pairs with a blank text
    were not there: no call is made for them.  So a response that carries
    results carries exactly one entry for each text that is not blank, in
    the order of the request, each with the voice paired to that text. *)
Theorem blank_texts_are_skipped request w :
  let pairs := request_pairs (POST request) in
  (forall results w0,
      generate_loop pairs results w0
      = generate_loop (non_blank_pairs pairs) results w0)
  /\ (forall results w',
         generate request w = (Ok (Response (AudioUrls results) 200), w') ->
         Forall2 entry_for results (non_blank_pairs pairs)).
Proof.
  intros pairs. split.
  - apply generate_loop_skips_blank.
  - intros results w' Hgen.
    destruct (generate_results_from_loop _ _ _ _ Hgen) as [w0 Hloop].
    destruct (generate_loop_entries _ _ _ _ _ Hloop) as (new & -> & Hnew).
    exact Hnew.
Qed.

End BatchFacts.

Lemma blank_texts_are_skipped_witness :
  let request :=
    Request "POST" [("text[]", "Hello."); ("text[]", "  "); ("text[]", "Bye.");
                    ("voice[]", "af_heart"); ("voice[]", "am_adam")] in
  match fst (generate request (fresh good_host)) with
  | Ok (Response (AudioUrls results) 200) =>
      Forall2 entry_for results [(Some "Hello.", "af_heart"); (Some "Bye.", "am_adam")]
  | _ => False
  end.
Proof.
  intros request.
  destruct (generate request (fresh good_host)) as [r w'] eqn:E.
  assert (Er : r = fst (generate request (fresh good_host))) by now rewrite E.
  vm_compute in Er. subst r.
  exact (proj2 (blank_texts_are_skipped request (fresh good_host)) _ _ E).
Defined.

Example generate_mixed_batch :
  fst (generate
         (Request "POST" [("text[]", "Hello."); ("text[]", "  "); ("text[]", "Bye.");
                          ("voice[]", "af_heart"); ("voice[]", "am_adam")])
         (fresh good_host))
  = Ok (Response
          (AudioUrls
             [Synthesis "/static/audio/af_heart_7.wav" (1 # 4000)
                [Chunk 0 (1 # 4000)] "af_heart";
              Synthesis "/static/audio/am_adam_77.wav" (1 # 6000)
                [Chunk 0 (1 # 6000)] "am_adam"]%Q)
          200).
Proof. vm_compute. reflexivity. Qed.

(* ===================================================================== *)
(** * utils.py: generate_speech and the sound-file store *)
(* ===================================================================== *)

Section StoreFacts.
Context {sample float ext : Type} `{FloatOps float} `{Outside ext sample}.

Local Abbreviation world := (world sample ext).
Local Abbreviation M := (M sample ext).
Local Abbreviation accum := (accum sample float).
Local Abbreviation entries := (list (string * node sample)).
Implicit Types (w : world) (es : entries) (st : accum) (p : path).

Variables (text voice : string) (output_path : path) (pl : pipeline ext sample).

(** Saving changes the store only, and there only the file it writes: the
    other entries of its directory are as they were, whatever the outcome. *)
Lemma save_audio_frame p segs w :
  let w' := snd (save_audio p segs w) in
  w' = set_fs (fs w') w
  /\ (forall es name, fs w !! dirname p = Some es ->
                      name <> basename p ->
                      exists es', fs w' !! dirname p = Some es'
                                  /\ find_entry name es' = find_entry name es).
Proof.
  assert (Hsame : forall w0 : world,
            w0 = w ->
            w0 = set_fs (fs w0) w
            /\ (forall es name, fs w !! dirname p = Some es ->
                                name <> basename p ->
                                exists es', fs w0 !! dirname p = Some es'
                                            /\ find_entry name es' = find_entry name es)).
  { intros w0 ->. split; [now destruct w|]. intros es name Hes _. eauto. }
  cbv zeta. unfold save_audio, torch_cat, makedirs, sf_write, sf_frames. unfold_M.
  destruct (cat_error segs); [now apply Hsame|].
  destruct (truthy (dirname p)); [|now apply Hsame].
  destruct (fs w !! dirname p) as [es|] eqn:Edir; simpl.
  - destruct (known_format (basename p)); [|now apply Hsame]. simpl.
    destruct (io_error (WriteFile p) (outside w)); [now apply Hsame|].
    rewrite Edir.
    destruct (find_entry (basename p) es) as [[frames|]|] eqn:Ef;
      [|now apply Hsame|];
      cbn [fs set_fs outside]; rewrite lookup_insert_eq, find_put_same;
      (destruct (io_error (OpenFile p) (outside w)); cbn [snd fs set_fs];
       (split; [reflexivity|]); intros es0 name [= <-] Hname;
       rewrite lookup_insert_eq; eexists;
       (split; [reflexivity | now apply find_put_other])).
  - destruct (io_error (Makedirs (dirname p)) (outside w)); [now apply Hsame|].
    cbn [fs set_fs outside fst snd].
    destruct (known_format (basename p)); cbn [negb];
      [|split; [reflexivity|discriminate]].
    destruct (io_error (WriteFile p) (outside w));
      [split; [reflexivity|discriminate]|].
    rewrite lookup_insert_eq. cbn [find_entry fs set_fs outside].
    rewrite lookup_insert_eq. cbn [put_file find_entry]. rewrite String.eqb_refl.
    destruct (io_error (OpenFile p) (outside w)); cbn [snd fs set_fs];
      (split; [reflexivity|discriminate]).
Qed.

(** X5.  [generate_speech] returns exactly when the espeak-ng data directory
    is there, the voice file is there or can be fetched, the pipeline yields
    at least one segment and the audio can be saved: the tensors can be
    joined, the output directory is there or can be made, the extension of
    the file name gives a format and the file can be written and read
    back.  It then returns the segments and timings of the loop and the
    number of frames of the written file over the sample rate. *)
Theorem generate_speech_succeeds w :
  let st := loop_exit pl voice text w in
  (espeak_data_exists (outside w) = true
   /\ voice_available voice w
   /\ audio_segments st <> []
   /\ writable output_path (audio_segments st) (loop_world pl voice text w))
  <-> exists w',
        generate_speech text voice output_path pl w
        = (Ok (audio_segments st, chunk_timings st,
               int_truediv
                 (Z.of_nat (length (sf_encode (basename output_path)
                                      (concat (audio_segments st)))))
                 SAMPLE_RATE), w').
Proof.
  cbv zeta. split.
  - intros (He & Hv & Hsegs & Hw).
    rewrite (generate_speech_from_loop _ _ _ _ w He Hv).
    destruct (audio_segments (loop_exit pl voice text w)) as [|seg segs] eqn:Es;
      [congruence|].
    rewrite (save_audio_ok _ _ _ Hw). eauto.
  - intros [w' Hret].
    destruct (generate_speech_returns _ _ _ _ _ _ _ _ _ Hret) as (_ & _ & Hne & He & Hv).
    split; [exact He|]. split; [exact Hv|]. split; [exact Hne|].
    rewrite (generate_speech_from_loop _ _ _ _ w He Hv) in Hret.
    destruct (audio_segments (loop_exit pl voice text w)) as [|seg segs] eqn:Es;
      [discriminate|].
    destruct (save_audio _ _ _) as [[dur|e] w3] eqn:Esave; [|discriminate].
    exact (save_audio_returns _ _ _ _ _ Esave).
Qed.

(** X6.  When [generate_speech] returns, the file at the output path holds
    the returned segments, joined and encoded in the format of the file, and
    the duration returned is the number of frames of that file over the
    sample rate; that is the number of samples of the segments over the
    sample rate when the encoding keeps one frame per sample. *)
Theorem generate_speech_file w segs timings dur w' :
  generate_speech text voice output_path pl w = (Ok (segs, timings, dur), w') ->
  let frames := sf_encode (basename output_path) (concat segs) in
  dur = int_truediv (Z.of_nat (length frames)) SAMPLE_RATE
  /\ (exists es', fs w' !! dirname output_path = Some es'
                  /\ find_entry (basename output_path) es' = Some (File frames))
  /\ (length frames = length (concat segs) ->
      dur = int_truediv (Z.of_nat (list_sum (map length segs))) SAMPLE_RATE).
Proof.
  intros Hret.
  destruct (generate_speech_returns _ _ _ _ _ _ _ _ _ Hret) as (-> & -> & Hne & He & Hv).
  rewrite (generate_speech_from_loop _ _ _ _ w He Hv) in Hret.
  destruct (audio_segments (loop_exit pl voice text w)) as [|seg segs] eqn:Es;
    [discriminate|].
  destruct (save_audio _ _ _) as [[dur'|e] w3] eqn:Esave; [|discriminate].
  rewrite (save_audio_ok _ _ _ (save_audio_returns _ _ _ _ _ Esave)) in Esave.
  injection Esave as <- <-. injection Hret as <- <-. cbv zeta.
  split; [reflexivity|]. split.
  - simpl. unfold store_after_write.
    eexists. split; [apply lookup_insert_eq | apply find_put_same].
  - intros E. change (seg ++ concat segs) with (concat (seg :: segs)).
    now rewrite E, length_concat.
Qed.

(** X7.  Whatever its outcome, [generate_speech] leaves the pipeline handle,
    the voice cache and the environment as they were, and in the directory
    of the output path it touches no entry but the file it writes. *)
Theorem generate_speech_frame w :
  let w' := snd (generate_speech text voice output_path pl w) in
  kokoro_pipeline w' = kokoro_pipeline w
  /\ voice_cache w' = voice_cache w
  /\ environ w' = environ w
  /\ (forall es name, fs w !! dirname output_path = Some es ->
                      name <> basename output_path ->
                      exists es', fs w' !! dirname output_path = Some es'
                                  /\ find_entry name es' = find_entry name es).
Proof.
  cbv zeta. rewrite generate_speech_steps.
  assert (Hsame : forall w0 : world,
            fs w0 = fs w ->
            forall es name, fs w !! dirname output_path = Some es ->
                            name <> basename output_path ->
                            exists es', fs w0 !! dirname output_path = Some es'
                                        /\ find_entry name es' = find_entry name es).
  { intros w0 ->. intros es name Hes _. eauto. }
  destruct (espeak_data_exists (outside w)); [|repeat split; apply (Hsame w eq_refl)].
  cbv zeta.
  destruct (if voice_file_exists voice (outside w) then _ else _) as [[[]|e] x];
    [|repeat split; apply (Hsame _ eq_refl)].
  destruct (synth_loop _ _ _ _ _) as [st x'].
  destruct (audio_segments st) as [|seg rest] eqn:Es;
    [repeat split; apply (Hsame _ eq_refl)|].
  set (w2 := set_outside x' _).
  destruct (save_audio_frame output_path (seg :: rest) w2) as [Hw3 Hes].
  destruct (save_audio output_path (seg :: rest) w2) as [[dur|e] w3]; simpl in *;
    rewrite Hw3; repeat split; exact Hes.
Qed.

Lemma take_all_windows (ys : list (list sample)) : forall st,
  Forall2 window_of (chunk_timings st) (audio_segments st) ->
  Forall2 window_of (chunk_timings (fold_left take_segment ys st))
          (audio_segments (fold_left take_segment ys st)).
Proof.
  induction ys as [|y ys IH]; intros st Hst; simpl; [exact Hst|].
  apply IH. simpl. apply Forall2_app; [exact Hst|].
  constructor; [reflexivity | constructor].
Qed.

(** X8.  When [generate_speech] returns, timings and segments go in pairs:
    the window of the i-th timing has the length of the i-th segment, its
    sample count over the sample rate. *)
Theorem generate_speech_windows w segs timings dur w' :
  generate_speech text voice output_path pl w = (Ok (segs, timings, dur), w') ->
  Forall2 window_of timings segs.
Proof.
  intros Hret.
  destruct (generate_speech_returns _ _ _ _ _ _ _ _ _ Hret) as (-> & -> & _).
  unfold loop_exit. rewrite synth_loop_fold.
  apply take_all_windows. constructor.
Qed.

End StoreFacts.

Lemma generate_speech_succeeds_witness :
  exists w',
    generate_speech "One. Two." "af_heart" out_wav speak (fresh good_host)
    = (Ok ([[0; 0; 0; 0]; [0; 0; 0; 0]]%Z,
           [Chunk 0 (1 # 6000); Chunk (1 # 6000) (1 # 3000)]%Q,
           (1 # 3000)%Q), w').
Proof.
  refine (proj1 (generate_speech_succeeds "One. Two." "af_heart" out_wav speak
                   (fresh good_host)) _).
  split; [reflexivity|]. split; [left; vm_compute; reflexivity|].
  split; [vm_compute; discriminate|].
  repeat split; try (vm_compute; reflexivity); discriminate.
Defined.

(** A file name whose extension names no format cannot be written, and a
    directory that cannot be made stops the call as well. *)
Example generate_speech_unknown_format :
  fst (generate_speech "One. Two." "af_heart" (Path "out" "notes.txt") speak
         (fresh good_host))
  = Raise (Exn TypeError
             "No format specified and unable to get format from file extension: notes.txt").
Proof. vm_compute. reflexivity. Qed.

Example generate_speech_locked_directory :
  fst (generate_speech "One. Two." "af_heart" (Path "srv/locked" "out.wav") speak
         (fresh good_host))
  = Raise (Exn PermissionError "srv/locked").
Proof. vm_compute. reflexivity. Qed.

Lemma generate_speech_file_witness :
  match generate_speech "One. Two." "af_heart" out_wav speak (fresh good_host) with
  | (Ok (segs, _, dur), w') =>
      dur = int_truediv (Z.of_nat (list_sum (map length segs))) SAMPLE_RATE
      /\ exists es', fs w' !! AUDIO_DIR = Some es'
                     /\ find_entry "out.wav" es' = Some (File (map pcm16 (concat segs)))
  | (Raise _, _) => False
  end.
Proof.
  destruct (generate_speech "One. Two." "af_heart" out_wav speak (fresh good_host))
    as [[[[segs timings] dur]|e] w'] eqn:E.
  - destruct (generate_speech_file _ _ _ _ _ _ _ _ _ E) as (_ & Hfile & Hdur).
    split; [|exact Hfile]. apply Hdur. apply length_map.
  - vm_compute in E. discriminate.
Defined.

Lemma generate_speech_windows_witness :
  match generate_speech "One. Two." "af_heart" out_wav speak (fresh good_host) with
  | (Ok (segs, timings, _), w') => Forall2 window_of timings segs
  | (Raise _, _) => False
  end.
Proof.
  destruct (generate_speech "One. Two." "af_heart" out_wav speak (fresh good_host))
    as [[[[segs timings] dur]|e] w'] eqn:E.
  - exact (generate_speech_windows _ _ _ _ _ _ _ _ _ E).
  - vm_compute in E. discriminate.
Defined.

(* ===================================================================== *)
(** * Footprints: what the computations leave as it was *)
(* ===================================================================== *)

Section Footprints.
Context {sample float ext : Type} `{FloatOps float} `{Outside ext sample}.

Local Abbreviation world := (world sample ext).
Local Abbreviation M := (M sample ext).
Local Abbreviation entries := (list (string * node sample)).
Implicit Types (w : world) (es : entries) (p : path).

(** A relation between worlds, the directories a computation may write to,
    the names it may delete. *)
Variable R : world -> world -> Prop.
Variable writes : string -> Prop.
Variable deletes : string -> Prop.

Hypothesis R_refl : forall w, R w w.
Hypothesis R_trans : forall w1 w2 w3, R w1 w2 -> R w2 w3 -> R w1 w3.
Hypothesis R_outside : forall x w, R w (set_outside x w).
Hypothesis R_wrapper : forall d w, R w (set_espeak_wrapper_data_path d w).
Hypothesis R_environ : forall w,
  R w (set_environ (<["ESPEAK_DATA_PATH" := ESPEAK_DATA_PATH]> (environ w)) w).
Hypothesis R_handle : forall h w, R w (set_kokoro_pipeline h w).
Hypothesis R_cache : forall v w,
  voice_cache w !! v = None ->
  R w (set_voice_cache (<[v := VOICE_DIR +:+ "/" +:+ v +:+ ".pt"]> (voice_cache w)) w).
Hypothesis R_mkdir : forall d w,
  writes d -> fs w !! d = None -> R w (set_fs (<[d := []]> (fs w)) w).
Hypothesis R_put : forall d name data es w,
  writes d -> fs w !! d = Some es -> find_entry name es <> Some SubDir ->
  R w (set_fs (<[d := put_file name data es]> (fs w)) w).

Lemma respects_ret {A} (a : A) : respects R (mret a : M A).
Proof. intros w. apply R_refl. Qed.

Lemma respects_raise {A} e : respects R (raise e : M A).
Proof. intros w. apply R_refl. Qed.

Lemma respects_gets {A} (f : world -> A) : respects R (gets f).
Proof. intros w. apply R_refl. Qed.

Lemma respects_of_result {A} (r : result A) : respects R (of_result r : M A).
Proof. intros w. apply R_refl. Qed.

Lemma respects_call_out {A} (f : ext -> result A * ext) : respects R (call_out f : M A).
Proof. intros w. unfold call_out. destruct (f (outside w)). apply R_outside. Qed.

Lemma respects_bind_at {A B} (m : M A) (k : A -> M B) w :
  R w (snd (m w)) -> (forall a, respects R (k a)) -> R w (snd ((m ≫= k) w)).
Proof.
  intros Hm Hk. unfold_M.
  destruct (m w) as [[a|e] w1]; simpl in *; [|exact Hm].
  eapply R_trans; [exact Hm | apply Hk].
Qed.

Lemma respects_bind {A B} (m : M A) (k : A -> M B) :
  respects R m -> (forall a, respects R (k a)) -> respects R (m ≫= k).
Proof. intros Hm Hk w. now apply respects_bind_at. Qed.

Lemma respects_try {A} (m : M A) (h : exn -> M A) :
  respects R m -> (forall e, respects R (h e)) -> respects R (try_except m h).
Proof.
  intros Hm Hh w. unfold_M. specialize (Hm w).
  destruct (m w) as [[a|e] w1]; simpl in *; [exact Hm|].
  eapply R_trans; [exact Hm | apply Hh].
Qed.

Lemma respects_makedirs d : writes d -> respects R (makedirs d : M unit).
Proof.
  intros Hd w. unfold makedirs. destruct (truthy d); [|apply R_refl].
  destruct (fs w !! d) eqn:E; [apply R_refl|].
  destruct (io_error _ _); [apply R_refl | now apply R_mkdir].
Qed.

Lemma respects_sf_write p data :
  writes (dirname p) -> respects R (sf_write p data : M unit).
Proof.
  intros Hd w. unfold sf_write.
  destruct (known_format _); [|apply R_refl]. simpl.
  destruct (io_error _ _); [apply R_refl|].
  destruct (fs w !! dirname p) as [es|] eqn:E; [|apply R_refl].
  destruct (find_entry (basename p) es) as [[frames|]|] eqn:Ef; simpl;
    [|apply R_refl|]; apply R_put; try assumption; congruence.
Qed.

Lemma respects_sf_frames p : respects R (sf_frames p : M Z).
Proof.
  intros w. unfold sf_frames. destruct (io_error _ _); [apply R_refl|].
  destruct (fs w !! dirname p); [|apply R_refl].
  destruct (find_entry _ _) as [[]|]; apply R_refl.
Qed.

Lemma respects_torch_cat tensors : respects R (torch_cat tensors : M (list sample)).
Proof. intros w. unfold torch_cat. destruct (cat_error tensors); apply R_refl. Qed.

Lemma respects_listdir d : respects R (listdir d : M (list string)).
Proof. intros w. unfold listdir. destruct (fs w !! d); apply R_refl. Qed.

Lemma respects_run_synth_loop (pl : pipeline ext sample) voice sentences :
  respects R (run_synth_loop (float := float) pl voice sentences).
Proof.
  intros w. unfold run_synth_loop. destruct (synth_loop _ _ _ _ _). apply R_outside.
Qed.

Lemma respects_modify (f : world -> world) :
  (forall w, R w (f w)) -> respects R (modify f).
Proof. intros Hf w. apply Hf. Qed.

#[local] Hint Resolve respects_ret respects_raise respects_gets respects_of_result
  respects_call_out respects_sf_frames respects_torch_cat respects_listdir
  respects_run_synth_loop respects_makedirs respects_sf_write : footprint.

Ltac footprint_step :=
  match goal with
  | |- respects _ (_ ≫= _) => apply respects_bind; [|intros ?]
  | |- respects _ (try_except _ _) => apply respects_try; [|intros ?]
  | |- respects _ (modify _) => apply respects_modify; intros ?; auto
  | |- respects _ (path_exists _) => apply respects_gets
  | |- respects _ (match ?x with _ => _ end) => destruct x
  | |- respects _ _ => solve [auto with footprint]
  end.
Ltac footprint := repeat footprint_step.

Lemma respects_generate_speech text voice p (pl : pipeline ext sample) :
  writes (dirname p) ->
  respects R (generate_speech (float := float) text voice p pl).
Proof. intros Hp. unfold generate_speech. footprint. Qed.

Lemma respects_initialize : respects R (initialize_kokoro_pipeline : M unit).
Proof. unfold initialize_kokoro_pipeline. footprint. Qed.

#[local] Hint Resolve respects_generate_speech respects_initialize : footprint.

(** The voice is put in the cache only when it is not there. *)
Lemma respects_once text voice p :
  writes (dirname p) ->
  respects R (generate_audio_for_sentence_once (float := float) text voice p).
Proof.
  intros Hp. unfold generate_audio_for_sentence_once.
  apply respects_bind; [footprint|intros handle].
  apply respects_bind; [footprint|intros _].
  intros w. change (R w (snd
    ((match voice_cache w !! voice with
      | Some _ => mret tt
      | None =>
          local ← gets (fun w => voice_file_exists voice (outside w));
          (if negb local
           then call_out (hf_hub_download ("voices/" +:+ voice +:+ ".pt"))
           else mret tt);;
          modify (fun w =>
            set_voice_cache
              (<[voice := VOICE_DIR +:+ "/" +:+ voice +:+ ".pt"]> (voice_cache w)) w)
      end ≫= fun _ =>
        h ← gets kokoro_pipeline;
        r ← generate_speech text voice p (call_handle h);
        let '(_, timings, duration) := r in
        mret (Synthesis ("/static/audio/" +:+ basename p) duration timings voice)) w))).
  apply respects_bind_at; [|intros _; footprint].
  destruct (voice_cache w !! voice) eqn:Ec; [apply R_refl|].
  unfold_M. simpl.
  destruct (voice_file_exists voice (outside w)); simpl; [now apply R_cache|].
  destruct (hf_hub_download _ _) as [[[]|e] x]; simpl; [|apply R_outside].
  eapply R_trans; [apply (R_outside x)|].
  apply (R_cache voice (set_outside x w)). exact Ec.
Qed.

Lemma respects_retry {A} (f : M A) n : respects R f -> respects R (retry_more n f).
Proof. intros Hf. induction n as [|n IH]; simpl; [exact Hf|]. footprint; assumption. Qed.

Lemma respects_generate_audio text voice p :
  writes (dirname p) ->
  respects R (generate_audio_for_sentence (float := float) text voice p).
Proof. intros Hp. now apply respects_retry, respects_once. Qed.

(** The loop writes where the voices of the request send it. *)
Lemma respects_generate_loop pairs : forall results : list (synthesis float),
  (forall d, writes d) -> respects R (generate_loop pairs results).
Proof.
  induction pairs as [|[text voice] rest IH]; intros results Ha; simpl; footprint;
    try (now apply IH).
  apply respects_generate_audio, Ha.
Qed.

Lemma respects_generate request :
  (forall d, writes d) -> respects R (generate (float := float) request).
Proof.
  intros Ha. unfold generate. footprint. now apply respects_generate_loop.
Qed.

(** *** The cleanup loop *)

Hypothesis R_delete : forall d name frames es w,
  writes d -> deletes name ->
  fs w !! d = Some es -> find_entry name es = Some (File frames) ->
  R w (set_fs (<[d := delete_entry name es]> (fs w)) w).
Hypothesis deletes_wav : forall name, endswith name ".wav" = true -> deletes name.

Lemma respects_os_remove p :
  writes (dirname p) -> deletes (basename p) -> respects R (os_remove p : M unit).
Proof.
  intros Hd Hn w. unfold os_remove.
  destruct (fs w !! dirname p) as [es|] eqn:E; [|apply R_refl].
  destruct (find_entry (basename p) es) as [[frames|]|] eqn:Ef; simpl;
    [|apply R_refl|apply R_refl].
  eapply R_delete; eassumption.
Qed.

Lemma respects_remove_wav_files names :
  writes AUDIO_DIR -> respects R (remove_wav_files names : M unit).
Proof.
  intros Ha. induction names as [|n names IH]; simpl; [footprint|].
  apply respects_bind; [|intros _; exact IH].
  destruct (endswith n ".wav") eqn:En; [|footprint].
  apply respects_os_remove; [exact Ha | now apply deletes_wav].
Qed.

Lemma respects_cleanup request :
  writes AUDIO_DIR -> respects R (cleanup_audio request : M (JsonResponse float)).
Proof.
  intros Ha. unfold cleanup_audio. footprint. now apply respects_remove_wav_files.
Qed.

Lemma respects_process w w' :
  (forall d, writes d) -> rtc (process_step (float := float)) w w' -> R w w'.
Proof.
  intros Ha. induction 1 as [w|w w1 w2 Hstep _ IH]; [apply R_refl|].
  eapply R_trans; [|exact IH].
  destruct Hstep as [request w|request w|x w].
  - now apply respects_generate.
  - apply respects_cleanup, Ha.
  - apply R_outside.
Qed.

End Footprints.

(* ===================================================================== *)
(** * What the views leave as it was *)
(* ===================================================================== *)

Section Kept.
Context {sample float ext : Type} `{FloatOps float} `{Outside ext sample}.

Local Abbreviation world := (world sample ext).
Local Abbreviation entries := (list (string * node sample)).
Implicit Types (w : world) (es : entries).

Lemma find_delete_other name name' es :
  name' <> name -> find_entry name' (delete_entry name es) = find_entry name' es.
Proof.
  intros Hne. induction es as [|[n x] es IH]; simpl; [reflexivity|].
  destruct (String.eqb_spec n name) as [->|_]; simpl.
  - destruct (String.eqb_spec name name'); [congruence | reflexivity].
  - now rewrite IH.
Qed.

Lemma cache_kept_refl w : cache_kept w w.
Proof. intros v p E. exact E. Qed.

Lemma cache_kept_trans w1 w2 w3 : cache_kept w1 w2 -> cache_kept w2 w3 -> cache_kept w1 w3.
Proof. intros H12 H23 v p E. apply H23, H12, E. Qed.

(** X9.  The voice cache only grows: whatever the process does (any sequence
    of calls of the views), a voice that is in the cache stays in it, with
    the path it has. *)
Theorem voice_cache_persists w w' :
  rtc (process_step (float := float)) w w' -> cache_kept w w'.
Proof.
  apply (respects_process cache_kept (fun _ => True) (fun _ => True)).
  1: apply cache_kept_refl.
  1: apply cache_kept_trans.
  5: { intros v w0 Hnone v0 p0 E. simpl.
       destruct (decide (v = v0)) as [->|Hne]; [congruence|].
       now rewrite lookup_insert_ne. }
  all: try (intros; exact I).
  all: intros; intros v' p' E; exact E.
Qed.

Lemma other_dirs_kept_refl w : other_dirs_kept w w.
Proof. intros d _. reflexivity. Qed.

Lemma other_dirs_kept_trans w1 w2 w3 :
  other_dirs_kept w1 w2 -> other_dirs_kept w2 w3 -> other_dirs_kept w1 w3.
Proof. intros H12 H23 d Hd. now rewrite (H23 d Hd), (H12 d Hd). Qed.

(** X10.  Whether it reports success or an error, [cleanup_audio] touches
    the audio directory only: every other directory of the store is as it
    was. *)
Theorem cleanup_touches_audio_dir_only request w :
  other_dirs_kept w (snd (cleanup_audio (float := float) request w)).
Proof.
  apply (respects_cleanup other_dirs_kept (fun d => d = AUDIO_DIR) (fun _ => True)).
  - apply other_dirs_kept_refl.
  - apply other_dirs_kept_trans.
  - intros d name frames es w0 -> _ _ _ d' Hd'. simpl. now rewrite lookup_insert_ne.
  - intros; exact I.
  - reflexivity.
Qed.

Lemma names_kept_refl w : names_kept w w.
Proof. intros d es name E Hn. eauto. Qed.

Lemma names_kept_trans w1 w2 w3 : names_kept w1 w2 -> names_kept w2 w3 -> names_kept w1 w3.
Proof.
  intros H12 H23 d es name E Hn.
  destruct (H12 d es name E Hn) as (es2 & E2 & Hn2). eauto.
Qed.

(** X11.  [generate] never removes a file: every name that was in a
    directory of the store is still there when the view returns, whether the
    batch went through or was aborted. *)
Theorem generate_removes_nothing request w :
  names_kept w (snd (generate (float := float) request w)).
Proof.
  apply (respects_generate names_kept (fun _ => True)).
  1: apply names_kept_refl.
  1: apply names_kept_trans.
  6: { intros d w0 _ Hnone d' es name E Hn. simpl.
       destruct (decide (d = d')) as [->|Hne]; [congruence|].
       rewrite lookup_insert_ne by exact Hne. eauto. }
  6: { intros d name data es w0 _ Hdir _ d' es' name' E Hn. simpl.
       destruct (decide (d = d')) as [<-|Hne].
       - rewrite lookup_insert_eq. eexists. split; [reflexivity|].
         assert (es' = es) by congruence. subst es'.
         destruct (decide (name' = name)) as [->|Hname].
         + rewrite find_put_same. eauto.
         + now rewrite find_put_other.
       - rewrite lookup_insert_ne by exact Hne. eauto. }
  6: intros; exact I.
  all: intros; intros d' es' name' E Hn; simpl; eauto.
Qed.

Lemma non_wav_kept_refl w : non_wav_kept w w.
Proof. intros es E. eauto. Qed.

Lemma non_wav_kept_trans w1 w2 w3 :
  non_wav_kept w1 w2 -> non_wav_kept w2 w3 -> non_wav_kept w1 w3.
Proof.
  intros H12 H23 es E. destruct (H12 es E) as (es2 & E2 & Hn2).
  destruct (H23 es2 E2) as (es3 & E3 & Hn3).
  exists es3. split; [exact E3|]. intros name Hname.
  now rewrite (Hn3 name Hname), (Hn2 name Hname).
Qed.

(** X12.  Whether it reports success or an error, [cleanup_audio] leaves
    every entry of the audio directory whose name does not end in [.wav] as
    it was. *)
Theorem cleanup_keeps_other_files request w :
  non_wav_kept w (snd (cleanup_audio (float := float) request w)).
Proof.
  apply (respects_cleanup non_wav_kept (fun d => d = AUDIO_DIR)
           (fun name => endswith name ".wav" = true)).
  - apply non_wav_kept_refl.
  - apply non_wav_kept_trans.
  - intros d name frames es w0 -> Hname Hdir Hfile es' E. simpl.
    rewrite lookup_insert_eq. eexists. split; [reflexivity|].
    assert (es' = es) by congruence. subst es'.
    intros name' Hname'. apply find_delete_other. congruence.
  - intros name Hname. exact Hname.
  - reflexivity.
Qed.

End Kept.

Lemma voice_cache_persists_witness :
  voice_cache
    (snd (cleanup_audio (float := Q) (Request "POST" [])
            (snd (generate
                    (Request "POST" [("text[]", "Hi."); ("text[]", "Ho.");
                                     ("voice[]", "af_heart"); ("voice[]", "bf_emma")])
                    (warm good_host)))))
    !! "bf_emma"
  = Some "cache/bf_emma.pt".
Proof.
  apply (voice_cache_persists (float := Q) (warm good_host)).
  - eapply rtc_l; [apply step_generate|]. apply rtc_once. apply step_cleanup.
  - reflexivity.
Defined.

(** The batch above did put its other voice into the cache, next to the one
    that was there. *)
Example voice_cache_grows :
  voice_cache
    (snd (generate (float := Q)
            (Request "POST" [("text[]", "Hi."); ("text[]", "Ho.");
                             ("voice[]", "af_heart"); ("voice[]", "bf_emma")])
            (warm good_host)))
  = {[ "af_heart" := VOICE_DIR +:+ "/af_heart.pt"; "bf_emma" := "cache/bf_emma.pt" ]}.
Proof. vm_compute. reflexivity. Qed.

Lemma cleanup_touches_audio_dir_only_witness :
  fs (snd (cleanup_audio (float := Q) (Request "POST" [])
             (two_dirs [("a.wav", File [1%Z])] [("site.wav", File [2%Z])] good_host)))
    !! "tts_app/static/css"
  = Some [("site.wav", File [2%Z])].
Proof.
  refine (eq_trans
            (cleanup_touches_audio_dir_only (float := Q) (Request "POST" [])
               (two_dirs [("a.wav", File [1%Z])] [("site.wav", File [2%Z])] good_host)
               "tts_app/static/css" _) _).
  - discriminate.
  - reflexivity.
Defined.

(* ===================================================================== *)
(** * views.py: what the generate view answers *)
(* ===================================================================== *)

Section Answers.
Context {sample float ext : Type} `{FloatOps float} `{Outside ext sample}.

Local Abbreviation world := (world sample ext).
Local Abbreviation M := (M sample ext).
Implicit Types (w : world) (request : HttpRequest).

Lemma any_stripped_false_blank (texts : list (option string)) :
  any_stripped texts = Ok false ->
  exists ts, texts = map Some ts /\ Forall (fun t => strip t = "") ts.
Proof.
  induction texts as [|[t|] texts IH]; simpl.
  - exists []. split; [reflexivity | constructor].
  - destruct (truthy (strip t)) eqn:Et; [discriminate|]. intros E.
    destruct (IH E) as (ts & -> & Hts). exists (t :: ts).
    split; [reflexivity|]. constructor; [now apply truthy_false | exact Hts].
  - discriminate.
Qed.

Lemma no_text_true_blank (texts : list (option string)) :
  no_text texts = Ok true ->
  exists ts, texts = map Some ts /\ Forall (fun t => strip t = "") ts.
Proof.
  destruct texts as [|t texts]; [exists []; split; [reflexivity|constructor]|].
  unfold no_text. destruct (any_stripped (t :: texts)) as [[|]|e] eqn:E;
    try discriminate.
  intros _. now apply any_stripped_false_blank.
Qed.

(** The four ways [generate] answers. *)
Lemma generate_answers request w :
  (method request <> "POST"
   /\ generate (float := float) request w
      = (Ok (Response (ErrorBody "Invalid request method") 400), w))
  \/ (method request = "POST"
      /\ no_text (request_texts (POST request)) = Ok true
      /\ generate (float := float) request w
         = (Ok (Response (ErrorBody "No text provided") 400), w))
  \/ (method request = "POST"
      /\ no_text (request_texts (POST request)) <> Ok true
      /\ exists results,
          fst (generate (float := float) request w)
          = Ok (Response (AudioUrls results) 200))
  \/ (method request = "POST"
      /\ no_text (request_texts (POST request)) <> Ok true
      /\ exists e,
          fst (generate (float := float) request w)
          = Ok (Response (ErrorBody (exn_msg e)) 500)).
Proof.
  remember (generate (float := float) request w) as run eqn:Hrun.
  unfold generate in Hrun.
  destruct (String.eqb_spec (method request) "POST") as [Em|Em]; simpl in Hrun;
    [|left; split; [exact Em | exact Hrun]].
  right. unfold try_except in Hrun.
  match type of Hrun with
  | context [let (_, _) := ?body w in _] =>
      destruct (body w) as [[resp|e] w1] eqn:E
  end.
  - apply bind_returns in E. destruct E as (blank & w0 & Hblank & E).
    unfold of_result in Hblank. injection Hblank as Hblank <-.
    destruct blank.
    + left. unfold_M. injection E as <- <-. repeat split; assumption.
    + right. left. split; [exact Em|]. split; [congruence|].
      do 3 (apply bind_returns in E; destruct E as (? & ? & _ & E)).
      apply bind_returns in E. destruct E as (out & w2 & _ & E).
      unfold_M. injection E as <- <-. exists out. now rewrite Hrun.
  - right. right. split; [exact Em|]. split.
    + intros Hblank. unfold_M. rewrite Hblank in E. discriminate.
    + exists e. now rewrite Hrun.
Qed.

(** X13.  [generate] never lets an exception out: it always returns a
    response, with status 200 and a list of results, or with status 400 or
    500 and an error message. *)
Theorem generate_always_answers request w :
  exists resp,
    fst (generate (float := float) request w) = Ok resp
    /\ ((exists results, resp = Response (AudioUrls results) 200)
        \/ (exists msg, resp = Response (ErrorBody msg) 400)
        \/ (exists msg, resp = Response (ErrorBody msg) 500)).
Proof.
  destruct (generate_answers request w)
    as [[_ E]|[(_ & _ & E)|[(_ & _ & results & E)|(_ & _ & e & E)]]];
    try rewrite E; eauto 8.
Qed.

(** X14.  [generate] answers 400 exactly when the method is not POST or the
    texts it reads from the form are all blank; and a request answered 400
    has changed nothing. *)
Theorem generate_400 request w :
  let resp := fst (generate (float := float) request w) in
  ((exists msg, resp = Ok (Response (ErrorBody msg) 400))
   <-> (method request <> "POST"
        \/ exists ts, request_texts (POST request) = map Some ts
                      /\ Forall (fun t => strip t = "") ts))
  /\ ((exists msg, resp = Ok (Response (ErrorBody msg) 400)) ->
      snd (generate (float := float) request w) = w).
Proof.
  cbv zeta.
  destruct (generate_answers request w)
    as [[Hm E]|[(Hm & Hb & E)|[(Hm & Hb & results & E)|(Hm & Hb & e & E)]]];
    rewrite E; simpl.
  - split; [|reflexivity]. split; eauto.
  - split; [|reflexivity]. split; [|eauto]. intros _. right.
    now apply no_text_true_blank.
  - split; [|intros [msg [=]]]. split; [intros [msg [=]]|].
    intros [Hn|(ts & Ets & Hts)]; [contradiction|].
    exfalso. apply Hb. rewrite Ets. now apply no_text_blank.
  - split; [|intros [msg [=]]]. split; [intros [msg [=]]|].
    intros [Hn|(ts & Ets & Hts)]; [contradiction|].
    exfalso. apply Hb. rewrite Ets. now apply no_text_blank.
Qed.

(** X15.  [cleanup_audio] never lets an exception out: it answers "success"
    with status 200 or "error" with status 500. *)
Theorem cleanup_always_answers request w :
  fst (cleanup_audio (float := float) request w)
  = Ok (Response (StatusBody "success" "Audio folder cleaned up") 200)
  \/ exists msg,
      fst (cleanup_audio (float := float) request w)
      = Ok (Response (StatusBody "error" msg) 500).
Proof.
  unfold cleanup_audio, try_except.
  match goal with
  | |- context [let (_, _) := ?body w in _] =>
      destruct (body w) as [[resp|e] w1] eqn:E
  end.
  - left. apply bind_returns in E. destruct E as (present & w0 & _ & E).
    apply bind_returns in E. destruct E as (? & w2 & _ & E).
    unfold_M. now injection E as <- <-.
  - right. simpl. eauto.
Qed.

End Answers.

(* ===================================================================== *)
(** * views.py: batches *)
(* ===================================================================== *)

Section Batches.
Context {sample float ext : Type} `{FloatOps float} `{Outside ext sample}.

Local Abbreviation world := (world sample ext).
Local Abbreviation M := (M sample ext).
Implicit Types (w : world) (pairs : list (option string * string))
         (results : list (synthesis float)).

Lemma generate_loop_app pre : forall post results w,
  generate_loop (pre ++ post) results w
  = match generate_loop pre results w with
    | (Ok out, w1) => generate_loop post out w1
    | (Raise e, w1) => (Raise e, w1)
    end.
Proof.
  induction pre as [|[[t|] voice] pre IH]; intros post results w; simpl.
  - reflexivity.
  - unfold_M. simpl. destruct (truthy (strip t)); simpl; [|apply IH].
    destruct (hash_now (strip t) (outside w)) as [h x].
    destruct (generate_audio_for_sentence _ _ _ _) as [[r|e] w1];
      [apply IH | reflexivity].
  - reflexivity.
Qed.

(** X16.  A text whose synthesis fails (after the retries) aborts the batch:
    the loop of [generate] raises that exception at once, whatever texts
    follow, and the entries gathered for the texts before it are dropped. *)
Theorem failed_text_aborts_batch pre t voice post results w out w1 h x e w2 :
  generate_loop pre results w = (Ok out, w1) ->
  strip t <> "" ->
  hash_now (strip t) (outside w1) = (h, x) ->
  generate_audio_for_sentence (float := float) (strip t) voice
    (joined AUDIO_DIR (voice +:+ "_" +:+ h +:+ ".wav")) (set_outside x w1)
  = (Raise e, w2) ->
  generate_loop (pre ++ (Some t, voice) :: post) results w = (Raise e, w2).
Proof.
  intros Hpre Ht Hh Hfail. rewrite generate_loop_app, Hpre. simpl.
  unfold_M. simpl. apply truthy_true in Ht. rewrite Ht. simpl.
  rewrite Hh, Hfail. reflexivity.
Qed.

(** What the view makes of a loop that raises. *)
Lemma generate_loop_raises request w e w2 :
  method request = "POST" ->
  no_text (request_texts (POST request)) = Ok false ->
  kokoro_pipeline w <> None ->
  fs w !! AUDIO_DIR <> None ->
  generate_loop (request_pairs (POST request)) [] w = (Raise e, w2) ->
  generate (float := float) request w
  = (Ok (Response (ErrorBody (exn_msg e)) 500), w2).
Proof.
  intros Hm Hb Hp Hd Hloop. unfold generate. rewrite Hm. simpl.
  unfold request_pairs in Hloop. unfold_M. rewrite Hb. simpl.
  destruct (kokoro_pipeline w); [|congruence]. simpl.
  unfold makedirs. simpl. destruct (fs w !! AUDIO_DIR); [|congruence].
  now rewrite Hloop.
Qed.

(** X17.  Voices beyond the number of texts are ignored: with at least as
    many voices as texts, the i-th text is paired with the i-th voice. *)
Theorem surplus_voices_ignored (texts : list (option string)) (voices : list string) :
  length texts <= length voices ->
  combine texts (pad_voices voices (length texts)) = combine texts voices
  /\ map fst (combine texts voices) = texts
  /\ map snd (combine texts voices) = firstn (length texts) voices.
Proof.
  intros Hle. rewrite pad_voices_long by exact Hle. split; [reflexivity|].
  revert voices Hle. induction texts as [|t texts IH]; intros [|v voices] Hle;
    simpl in *; try (split; reflexivity); try lia.
  destruct (IH voices ltac:(lia)) as [E1 E2]. now rewrite E1, E2.
Qed.

End Batches.

Lemma failed_text_aborts_batch_witness :
  fst (generate_loop (float := Q)
         ([(Some "Hello.", "af_heart")] ++ (Some "Bad!", "af_heart")
            :: [(Some "Bye.", "af_heart")])
         [] (ready [] good_host))
  = Raise (Exn RuntimeError "No audio segments generated").
Proof.
  destruct (generate_loop (float := Q) [(Some "Hello.", "af_heart")] []
              (ready [] good_host)) as [[out|e0] w1] eqn:Epre;
    [|vm_compute in Epre; discriminate].
  assert (Ex : outside w1 = tick good_host).
  { change w1 with (snd (Ok out, w1)). rewrite <- Epre. vm_compute. reflexivity. }
  destruct (generate_audio_for_sentence (float := Q) (strip "Bad!") "af_heart"
              (joined AUDIO_DIR ("af_heart" +:+ "_" +:+ "77" +:+ ".wav"))
              (set_outside (tick (tick good_host)) w1)) as [[r|e] w2] eqn:Efail.
  - exfalso.
    assert (Hw1 : w1 = snd (generate_loop (float := Q) [(Some "Hello.", "af_heart")] []
                              (ready [] good_host))) by now rewrite Epre.
    rewrite Hw1 in Efail. vm_compute in Efail. discriminate.
  - rewrite (failed_text_aborts_batch [(Some "Hello.", "af_heart")] "Bad!" "af_heart"
               [(Some "Bye.", "af_heart")] [] (ready [] good_host) out w1 "77"
               (tick (tick good_host)) e w2 Epre).
    + assert (Hw1 : w1 = snd (generate_loop (float := Q) [(Some "Hello.", "af_heart")] []
                                (ready [] good_host))) by now rewrite Epre.
      rewrite Hw1 in Efail. vm_compute in Efail. injection Efail as <- _. reflexivity.
    + vm_compute. discriminate.
    + rewrite Ex. reflexivity.
    + exact Efail.
Defined.

Lemma surplus_voices_ignored_witness :
  combine [Some "Hi."] (pad_voices ["am_adam"; "bf_emma"] 1) = [(Some "Hi.", "am_adam")].
Proof.
  apply (proj1 (surplus_voices_ignored [Some "Hi."] ["am_adam"; "bf_emma"]
                  ltac:(simpl; lia))).
Defined.

(* ===================================================================== *)
(** * views.py: cleanup twice, and what a batch leaves behind *)
(* ===================================================================== *)

Section Aftermath.
Context {sample float ext : Type} `{FloatOps float} `{Outside ext sample}.

Local Abbreviation world := (world sample ext).
Local Abbreviation M := (M sample ext).
Local Abbreviation entries := (list (string * node sample)).
Local Abbreviation success :=
  (Response (StatusBody "success" "Audio folder cleaned up") 200 : JsonResponse float).
Implicit Types (w : world) (es : entries)
         (pairs : list (option string * string)) (results : list (synthesis float)).




(** *** Entries of a response *)

Lemma generate_speech_contiguous text voice p (pl : pipeline ext sample)
      w segs timings dur w' :
  generate_speech (float := float) text voice p pl w = (Ok (segs, timings, dur), w') ->
  contiguous timings.
Proof.
  intros Hret.
  destruct (generate_speech_returns _ _ _ _ _ _ _ _ _ Hret) as (Es & Et & Hne & _).
  assert (Hc : chained (loop_exit pl voice text w))
    by apply synth_loop_chained, accum_init_chained.
  assert (Hl : length timings = length segs).
  { subst. unfold loop_exit. rewrite synth_loop_fold.
    apply take_all_same_length. reflexivity. }
  unfold chained in Hc. rewrite <- Et in Hc. split.
  - destruct timings as [|c cs].
    + destruct segs; [congruence | discriminate].
    + exists c. split; [reflexivity|]. eapply chain_head; [exact Hc | reflexivity].
  - eapply chain_adjacent, Hc.
Qed.

Lemma generate_speech_keeps_caches text voice p (pl : pipeline ext sample) w :
  kokoro_pipeline (snd (generate_speech (float := float) text voice p pl w))
  = kokoro_pipeline w
  /\ voice_cache (snd (generate_speech (float := float) text voice p pl w))
     = voice_cache w.
Proof.
  rewrite generate_speech_steps.
  destruct (espeak_data_exists (outside w)); [|split; reflexivity]. cbv zeta.
  destruct (if voice_file_exists voice (outside w) then _ else _) as [[[]|e] x];
    [|split; reflexivity].
  destruct (synth_loop _ _ _ _ _) as [st x'].
  destruct (audio_segments st) as [|seg rest]; [split; reflexivity|].
  set (w2 := set_outside x' _).
  destruct (save_audio_frame p (seg :: rest) w2) as [Hw3 _].
  destruct (save_audio p (seg :: rest) w2) as [[dur|e] w3]; simpl in *;
    rewrite Hw3; split; reflexivity.
Qed.

(** An attempt that returns leaves the handle and the voice in place, and
    returns the timings of [generate_speech]. *)
Lemma generate_audio_once_post text voice p w r w' :
  generate_audio_for_sentence_once (float := float) text voice p w = (Ok r, w') ->
  is_Some (kokoro_pipeline w')
  /\ is_Some (voice_cache w' !! voice)
  /\ contiguous (chunk_timings_of r).
Proof.
  unfold generate_audio_for_sentence_once. intros E.
  apply bind_returns in E. destruct E as (h0 & w0 & E0 & E).
  unfold gets in E0. injection E0 as <- <-.
  apply bind_returns in E. destruct E as ([] & wa & Ea & E).
  assert (Ha : is_Some (kokoro_pipeline wa) /\ voice_cache wa = voice_cache w).
  { destruct (kokoro_pipeline w) as [h|] eqn:Eh.
    - unfold_M. injection Ea as <-. rewrite Eh. eauto.
    - rewrite (initialize_cold w Eh) in Ea.
      destruct (construct_pipeline (outside w)) as [[h|e] x]; [|discriminate].
      injection Ea as <-. simpl. eauto. }
  destruct Ha as [Hha Hca].
  apply bind_returns in E. destruct E as (cache & w1 & E1 & E).
  unfold gets in E1. injection E1 as <- <-.
  apply bind_returns in E. destruct E as ([] & wb & Eb & E).
  assert (Hb : kokoro_pipeline wb = kokoro_pipeline wa
               /\ is_Some (voice_cache wb !! voice)).
  { destruct (voice_cache wa !! voice) as [path|] eqn:Ec.
    - unfold_M. injection Eb as <-. rewrite Ec. eauto.
    - unfold_M. simpl in Eb.
      destruct (voice_file_exists voice (outside wa)); simpl in Eb.
      + injection Eb as <-. simpl. rewrite lookup_insert_eq. eauto.
      + destruct (hf_hub_download _ _) as [[[]|e] x]; simpl in Eb; [|discriminate].
        injection Eb as <-. simpl. rewrite lookup_insert_eq. eauto. }
  destruct Hb as [Hhb Hcb].
  apply bind_returns in E. destruct E as (h1 & w2 & E2 & E).
  unfold gets in E2. injection E2 as <- <-.
  apply bind_returns in E. destruct E as ([[segs timings] dur] & wc & Ec & E).
  unfold_M. injection E as <- <-. simpl.
  destruct (generate_speech_keeps_caches text voice p (call_handle (kokoro_pipeline wb)) wb)
    as [Hk Hv].
  rewrite Ec in Hk, Hv. simpl in Hk, Hv. rewrite Hk, Hv, Hhb.
  repeat split; try assumption.
  - eapply generate_speech_contiguous, Ec.
  - eapply generate_speech_contiguous, Ec.
Qed.

Lemma generate_audio_post text voice p w r w' :
  generate_audio_for_sentence (float := float) text voice p w = (Ok r, w') ->
  is_Some (kokoro_pipeline w')
  /\ is_Some (voice_cache w' !! voice)
  /\ contiguous (chunk_timings_of r)
  /\ voice_of r = voice.
Proof.
  intros E. pose proof (generate_audio_returns _ _ _ _ _ _ E) as [Hv _].
  apply retry_more_returns in E. destruct E as [w1 E].
  destruct (generate_audio_once_post _ _ _ _ _ _ E) as (? & ? & ?). auto.
Qed.

(** The voice cache does not shrink while the loop runs. *)
Lemma generate_audio_cache_kept text voice p w :
  cache_kept w (snd (generate_audio_for_sentence (float := float) text voice p w)).
Proof.
  apply (respects_generate_audio cache_kept (fun _ => True)).
  1: apply cache_kept_refl.
  1: apply cache_kept_trans.
  5: { intros v w0 Hnone v0 p0 E. simpl.
       destruct (decide (v = v0)) as [->|Hne]; [congruence|].
       now rewrite lookup_insert_ne. }
  all: try (intros; exact I).
  all: intros; intros v' p' E; exact E.
Qed.

Lemma generate_loop_post pairs : forall results w out w',
  generate_loop pairs results w = (Ok out, w') ->
  is_Some (kokoro_pipeline w) ->
  Forall (fun r => is_Some (voice_cache w !! voice_of r)
                   /\ contiguous (chunk_timings_of r)) results ->
  is_Some (kokoro_pipeline w')
  /\ Forall (fun r => is_Some (voice_cache w' !! voice_of r)
                      /\ contiguous (chunk_timings_of r)) out.
Proof.
  induction pairs as [|[[t|] voice] rest IH]; intros results w out w'; simpl.
  - unfold_M. intros [= <- <-]. auto.
  - unfold_M. simpl. destruct (truthy (strip t)); simpl; [|apply IH].
    destruct (hash_now (strip t) (outside w)) as [h x].
    destruct (generate_audio_for_sentence _ _ _ _) as [[r|e] w1] eqn:Er;
      [|discriminate].
    intros Hrest Hh Hres.
    destruct (generate_audio_post _ _ _ _ _ _ Er) as (Hh1 & Hc1 & Ht1 & Hv1).
    pose proof (generate_audio_cache_kept (strip t) voice
                  (joined AUDIO_DIR (voice +:+ "_" +:+ h +:+ ".wav")) (set_outside x w))
      as Hkept.
    rewrite Er in Hkept. simpl in Hkept.
    apply (IH _ _ _ _ Hrest Hh1).
    apply Forall_app. split.
    + eapply List.Forall_impl; [|exact Hres]. intros r0 [[path Hc0] Ht0].
      split; [|exact Ht0]. exists path. now apply Hkept.
    + constructor; [|constructor]. rewrite Hv1. auto.
  - unfold_M. discriminate.
Qed.

(** X19.  After a batch that went through, the pipeline handle is in place,
    the voice of every entry of the response is in the voice cache, and the
    chunk timings of every entry begin at [0.0] and follow one another
    without a gap. *)
Theorem batch_aftermath request w results w' :
  generate (float := float) request w = (Ok (Response (AudioUrls results) 200), w') ->
  is_Some (kokoro_pipeline w')
  /\ Forall (fun r => is_Some (voice_cache w' !! voice_of r)
                      /\ contiguous (chunk_timings_of r)) results.
Proof.
  unfold generate.
  destruct (negb (String.eqb (method request) "POST")); [discriminate|].
  unfold try_except at 1.
  match goal with
  | |- (let (_, _) := ?body w in _) = _ -> _ =>
      destruct (body w) as [[resp|e] w1] eqn:E; [|discriminate]
  end.
  intros [= -> ->].
  apply bind_returns in E. destruct E as ([|] & w0 & E0 & E); [discriminate|].
  unfold of_result in E0. injection E0 as _ <-.
  apply bind_returns in E. destruct E as (h0 & wx & Ex & E).
  unfold gets in Ex. injection Ex as <- <-.
  apply bind_returns in E. destruct E as ([] & wa & Ea & E).
  assert (Ha : is_Some (kokoro_pipeline wa)).
  { destruct (kokoro_pipeline w) as [h|] eqn:Eh.
    - unfold_M. injection Ea as <-. rewrite Eh. eauto.
    - rewrite (initialize_cold w Eh) in Ea.
      destruct (construct_pipeline (outside w)) as [[h|e] x]; [|discriminate].
      injection Ea as <-. simpl. eauto. }
  apply bind_returns in E. destruct E as ([] & wb & Eb & E).
  assert (Hb : is_Some (kokoro_pipeline wb)).
  { destruct Ha as [h Hh]. exists h.
    pose proof (keeps_ready_makedirs (sample := sample) (ext := ext) AUDIO_DIR wa h Hh)
      as Hk.
    now rewrite Eb in Hk. }
  apply bind_returns in E. destruct E as (out & wc & Hloop & E).
  unfold_M. injection E as <- <-.
  apply (generate_loop_post _ _ _ _ _ Hloop Hb). constructor.
Qed.

End Aftermath.


Lemma batch_aftermath_witness :
  let request := Request "POST" [("text[]", "Hello."); ("voice[]", "am_adam")] in
  is_Some (kokoro_pipeline (snd (generate (float := Q) request (fresh good_host)))).
Proof.
  intros request.
  destruct (generate (float := Q) request (fresh good_host)) as [r w'] eqn:E.
  assert (Er : r = fst (generate (float := Q) request (fresh good_host)))
    by now rewrite E.
  vm_compute in Er. subst r.
  exact (proj1 (batch_aftermath request (fresh good_host) _ _ E)).
Defined.

(* ===================================================================== *)
(** * More on generate_speech and the initializer *)
(* ===================================================================== *)

Section SpeechMore.
Context {sample float ext : Type} `{FloatOps float} `{Outside ext sample}.

Local Abbreviation world := (world sample ext).
Local Abbreviation M := (M sample ext).
Implicit Types (w : world) (pl : pipeline ext sample).

(** X20.  When [generate_speech] returns, the segments it returns are what
    the pipeline calls yielded, call after call, in order; whether a call
    ended in an exception makes no difference to them. *)
Theorem generate_speech_segments text voice p pl w segs timings dur w' :
  generate_speech (float := float) text voice p pl w = (Ok (segs, timings, dur), w') ->
  segs = concat (map yielded
                   (loop_outcomes pl voice (split_sentences text) (loop_entry voice w))).
Proof.
  intros Hret.
  destruct (generate_speech_returns _ _ _ _ _ _ _ _ _ Hret) as (-> & _).
  rewrite loop_exit_outcomes, take_all_segments. reflexivity.
Qed.

Lemma split_sentences_blank text : strip text = "" -> split_sentences text = [""].
Proof.
  intros Hb. destruct (split_sentences_cases text) as [[_ E]|[Hk E]].
  - now rewrite E, Hb.
  - exfalso. apply Hk. apply filter_all_blank, re_split_blank, Hb.
Qed.

(** X21.  For a blank text (empty or white space only) the pipeline is never
    called, and [generate_speech] raises: ["No audio segments generated"]
    when the espeak-ng data directory is there and the voice file is there
    or can be fetched.  The store is left as it was. *)
Theorem generate_speech_blank_text text voice p pl w :
  strip text = "" ->
  loop_outcomes pl voice (split_sentences text) (loop_entry voice w) = []
  /\ (exists e, fst (generate_speech (float := float) text voice p pl w) = Raise e)
  /\ fs (snd (generate_speech (float := float) text voice p pl w)) = fs w
  /\ (espeak_data_exists (outside w) = true -> voice_available voice w ->
      fst (generate_speech (float := float) text voice p pl w)
      = Raise (Exn RuntimeError "No audio segments generated")).
Proof.
  intros Hb. rewrite generate_speech_steps, (split_sentences_blank text Hb).
  split; [reflexivity|].
  destruct (espeak_data_exists (outside w)); [|repeat split; eauto; discriminate].
  cbv zeta.
  destruct (voice_file_exists voice (outside w)) eqn:Ev.
  - simpl. repeat split; eauto.
  - unfold voice_available. rewrite Ev.
    destruct (hf_hub_download _ _) as [[[]|e] x]; simpl; repeat split; eauto.
    intros _ [?|?]; discriminate.
Qed.

(** X22.  Once the initializer has returned, calling it again does nothing;
    and after it has raised, the handle is still absent, so that the next
    call tries the construction again. *)
Theorem initialize_again w :
  (forall w1, initialize_kokoro_pipeline w = (Ok tt, w1) ->
              initialize_kokoro_pipeline w1 = (Ok tt, w1))
  /\ (forall e w1, initialize_kokoro_pipeline w = (Raise e, w1) ->
        fst (initialize_kokoro_pipeline w1)
        = match fst (construct_pipeline (outside w1)) with
          | Ok _ => Ok tt
          | Raise e' => Raise e'
          end).
Proof.
  split.
  - intros w1 E. destruct (kokoro_pipeline w) as [h|] eqn:Eh.
    + rewrite (initialize_ready w h Eh) in E. injection E as <-.
      now apply (initialize_ready w h).
    + rewrite (initialize_cold w Eh) in E.
      destruct (construct_pipeline (outside w)) as [[h|e] x]; [|discriminate].
      injection E as <-. now apply (initialize_ready _ h).
  - intros e w1 E. destruct (kokoro_pipeline w) as [h|] eqn:Eh.
    + rewrite (initialize_ready w h Eh) in E. discriminate.
    + rewrite (initialize_cold w Eh) in E.
      destruct (construct_pipeline (outside w)) as [[h|e'] x]; [discriminate|].
      injection E as _ <-. rewrite initialize_cold by reflexivity. simpl.
      now destruct (construct_pipeline x) as [[h|e''] x'].
Qed.

End SpeechMore.

Lemma generate_speech_segments_witness :
  match generate_speech "Hello. Bad! Half? Bye." "af_heart" out_wav speak
          (fresh good_host) with
  | (Ok (segs, _, _), _) => length segs = 3
  | (Raise _, _) => False
  end.
Proof.
  destruct (generate_speech "Hello. Bad! Half? Bye." "af_heart" out_wav speak
              (fresh good_host)) as [[[[segs timings] dur]|e] w'] eqn:E.
  - rewrite (generate_speech_segments _ _ _ _ _ _ _ _ _ E). reflexivity.
  - vm_compute in E. discriminate.
Defined.

Lemma generate_speech_blank_text_witness :
  fst (generate_speech "   " "af_heart" out_wav speak (fresh good_host))
  = Raise (Exn RuntimeError "No audio segments generated").
Proof.
  apply (generate_speech_blank_text (float := Q) "   " "af_heart" out_wav speak
           (fresh good_host)).
  - reflexivity.
  - reflexivity.
  - left. vm_compute. reflexivity.
Defined.

Lemma initialize_again_witness :
  initialize_kokoro_pipeline (snd (initialize_kokoro_pipeline (fresh good_host)))
  = (Ok tt, snd (initialize_kokoro_pipeline (fresh good_host))).
Proof.
  apply (proj1 (initialize_again (fresh good_host))). reflexivity.
Defined.

(* ===================================================================== *)
(** * os.path on plain names *)
(* ===================================================================== *)

Section PathFacts.

Variable p : ascii -> bool.

Lemma take_while_app_stop (l : list ascii) c rest :
  Forall (fun a => p a = true) l -> p c = false ->
  OsPath.take_while p (l ++ c :: rest) = l.
Proof.
  intros Hl Hc. induction Hl as [|a l Ha _ IH]; simpl.
  - now rewrite Hc.
  - now rewrite Ha, IH.
Qed.

Lemma drop_while_app_stop (l : list ascii) c rest :
  Forall (fun a => p a = true) l -> p c = false ->
  drop_while p (l ++ c :: rest) = c :: rest.
Proof.
  intros Hl Hc. induction Hl as [|a l Ha _ IH]; simpl.
  - now rewrite Hc.
  - now rewrite Ha.
Qed.

End PathFacts.

Lemma list_ascii_of_string_append (a b : string) :
  list_ascii_of_string (a +:+ b) = list_ascii_of_string a ++ list_ascii_of_string b.
Proof. induction a as [|c a IH]; simpl; [reflexivity | now rewrite IH]. Qed.

Lemma plain_name_append (a b : string) :
  plain_name a -> plain_name b -> plain_name (a +:+ b).
Proof.
  unfold plain_name. rewrite list_ascii_of_string_append. apply Forall_app_2.
Qed.

Lemma plain_name_no_sep (name : string) :
  plain_name name ->
  Forall (fun c => negb (OsPath.is_sep c) = true) (list_ascii_of_string name).
Proof.
  apply List.Forall_impl. intros c (Hc & _). unfold OsPath.is_sep.
  destruct (Nat.eqb_spec (nat_of_ascii c) 47) as [E|_]; [|reflexivity].
  exfalso. apply Hc. rewrite <- (ascii_nat_embedding c), E. reflexivity.
Qed.

(** A plain name joined to the audio directory comes apart into the audio
    directory and the name. *)
Lemma joined_plain (name : string) :
  plain_name name -> joined AUDIO_DIR name = Path AUDIO_DIR name.
Proof.
  intros Hp.
  assert (Hj : OsPath.join AUDIO_DIR name = AUDIO_DIR +:+ "/" +:+ name).
  { unfold OsPath.join. destruct name as [|c name']; [reflexivity|].
    pose proof (plain_name_no_sep _ Hp) as Hs. simpl in Hs.
    apply Forall_cons_1 in Hs. destruct Hs as [Hc _].
    apply negb_true_iff in Hc. rewrite Hc. reflexivity. }
  pose proof (plain_name_no_sep _ Hp) as Hs. apply List.Forall_rev in Hs.
  unfold joined. rewrite Hj.
  unfold OsPath.dirname, OsPath.basename, OsPath.split_chars.
  rewrite !list_ascii_of_string_append.
  set (N := list_ascii_of_string name) in *.
  change (list_ascii_of_string "/" ++ N) with ("/"%char :: N).
  assert (Hrev : rev (list_ascii_of_string AUDIO_DIR ++ "/"%char :: N)
                 = rev N ++ "/"%char :: rev (list_ascii_of_string AUDIO_DIR)).
  { rewrite rev_app_distr. simpl. now rewrite <- app_assoc. }
  rewrite Hrev.
  rewrite (take_while_app_stop _ _ "/"%char _ Hs eq_refl),
          (drop_while_app_stop _ _ "/"%char _ Hs eq_refl).
  cbn [fst snd]. f_equal; try reflexivity.
  rewrite rev_involutive. apply string_of_list_ascii_of_string.
Qed.

(* ===================================================================== *)
(** * views.py: the files behind a response *)
(* ===================================================================== *)

Section Served.
Context {sample float ext : Type} `{FloatOps float} `{Outside ext sample}.

Local Abbreviation world := (world sample ext).
Local Abbreviation M := (M sample ext).
Implicit Types (w : world) (pairs : list (option string * string))
         (results : list (synthesis float)).

Lemma files_kept_refl w : files_kept w w.
Proof. intros d es name frames E Hf. eauto. Qed.

Lemma files_kept_trans w1 w2 w3 : files_kept w1 w2 -> files_kept w2 w3 -> files_kept w1 w3.
Proof.
  intros H12 H23 d es name frames E Hf.
  destruct (H12 d es name frames E Hf) as (es2 & frames2 & E2 & Hf2). eauto.
Qed.

(** Synthesis overwrites files at most; it removes none. *)
Lemma generate_audio_files_kept text voice p w :
  files_kept w (snd (generate_audio_for_sentence (float := float) text voice p w)).
Proof.
  apply (respects_generate_audio files_kept (fun _ => True)).
  1: apply files_kept_refl.
  1: apply files_kept_trans.
  6: { intros d w0 _ Hnone d' es name frames E Hf. simpl.
       destruct (decide (d = d')) as [->|Hne]; [congruence|].
       rewrite lookup_insert_ne by exact Hne. eauto. }
  6: { intros d name data es w0 _ Hdir _ d' es' name' frames E Hf. simpl.
       destruct (decide (d = d')) as [<-|Hne].
       - rewrite lookup_insert_eq. assert (es' = es) by congruence. subst es'.
         destruct (decide (name' = name)) as [->|Hname].
         + eexists _, _. split; [reflexivity | apply find_put_same].
         + eexists _, _. split; [reflexivity|].
           rewrite find_put_other by exact Hname. exact Hf.
       - rewrite lookup_insert_ne by exact Hne. eauto. }
  6: exact I.
  all: intros; intros d' es' name' frames' E Hf; simpl; eauto.
Qed.

Lemma served_kept w w' (r : synthesis float) :
  files_kept w w' -> served w r -> served w' r.
Proof.
  intros Hk (name & es & frames & Hu & Hd & Hf).
  destruct (Hk _ _ _ _ Hd Hf) as (es' & frames' & Hd' & Hf').
  exists name, es', frames'. auto.
Qed.

Lemma generate_speech_written text voice p (pl : pipeline ext sample)
      w segs timings dur w' :
  generate_speech (float := float) text voice p pl w = (Ok (segs, timings, dur), w') ->
  exists es' frames, fs w' !! dirname p = Some es'
                     /\ find_entry (basename p) es' = Some (File frames).
Proof.
  rewrite generate_speech_steps.
  destruct (espeak_data_exists (outside w)); [|discriminate]. cbv zeta.
  destruct (if voice_file_exists voice (outside w) then _ else _) as [[[]|e] x];
    [|discriminate].
  destruct (synth_loop _ _ _ _ _) as [st x'].
  destruct (audio_segments st) as [|seg rest] eqn:Es; [discriminate|].
  set (w2 := set_outside x' _).
  destruct (save_audio p (seg :: rest) w2) as [[dur'|e] w3] eqn:Esave; [|discriminate].
  rewrite (save_audio_ok _ _ _ (save_audio_returns _ _ _ _ _ Esave)) in Esave.
  injection Esave as <- <-. intros [= <- <- <- <-].
  simpl. unfold store_after_write.
  eexists _, _. split; [apply lookup_insert_eq | apply find_put_same].
Qed.

Lemma generate_audio_served text voice name w r w' :
  generate_audio_for_sentence (float := float) text voice (Path AUDIO_DIR name) w
  = (Ok r, w') ->
  served w' r.
Proof.
  intros E. apply retry_more_returns in E. destruct E as [w1 E].
  pose proof (generate_audio_once_returns _ _ _ _ _ _ E) as [_ Hurl].
  unfold generate_audio_for_sentence_once in E.
  do 5 (apply bind_returns in E; destruct E as (? & ? & _ & E)).
  apply bind_returns in E. destruct E as ([[segs timings] dur] & wc & Ec & E).
  unfold_M. injection E as _ <-.
  destruct (generate_speech_written _ _ _ _ _ _ _ _ _ Ec) as (es' & frames & Hd & Hf).
  exists name, es', frames. auto.
Qed.

Lemma generate_loop_served pairs : forall results w out w',
  (forall text x, plain_name (fst (hash_now text x))) ->
  Forall (fun tv => plain_name (snd tv)) pairs ->
  generate_loop pairs results w = (Ok out, w') ->
  Forall (served w) results -> Forall (served w') out.
Proof.
  induction pairs as [|[[t|] voice] rest IH];
    intros results w out w' plain_hash Hplain; simpl.
  - unfold_M. now intros [= <- <-].
  - apply Forall_cons_1 in Hplain. destruct Hplain as [Hvoice Hplain]. simpl in Hvoice.
    unfold_M. simpl. destruct (truthy (strip t)); simpl; [|now apply IH].
    pose proof (plain_hash (strip t) (outside w)) as Hh.
    destruct (hash_now (strip t) (outside w)) as [h x]. simpl in Hh.
    rewrite joined_plain
      by (repeat apply plain_name_append; try assumption; repeat constructor;
          discriminate).
    destruct (generate_audio_for_sentence _ _ _ _) as [[r|e] w1] eqn:Er;
      [|discriminate].
    intros Hrest Hres. apply (IH _ _ _ _ plain_hash Hplain Hrest).
    pose proof (generate_audio_files_kept (strip t) voice
                  (Path AUDIO_DIR (voice +:+ "_" +:+ h +:+ ".wav")) (set_outside x w))
      as Hkept.
    rewrite Er in Hkept. simpl in Hkept.
    apply Forall_app. split.
    + eapply List.Forall_impl; [|exact Hres]. intros r0 Hr0.
      apply (served_kept (set_outside x w) w1 r0 Hkept). exact Hr0.
    + constructor; [|constructor]. eapply generate_audio_served, Er.
  - unfold_M. discriminate.
Qed.

(** X23.  Every entry of a response points to a file that is there, when
    the voices of the request are plain names, with no separator of
    [os.path] in them (the hash in a file name is a numeral, a plain name as
    well): the url of each entry of the results is [/static/audio/<name>]
    for a file [<name>] of the audio directory. *)
Theorem response_files_exist request w results w' :
  (forall text x, plain_name (fst (hash_now text x))) ->
  Forall (fun tv => plain_name (snd tv)) (request_pairs (POST request)) ->
  generate (float := float) request w = (Ok (Response (AudioUrls results) 200), w') ->
  Forall (served w') results.
Proof.
  intros Hhash Hplain Hgen.
  destruct (generate_results_from_loop _ _ _ _ Hgen) as [w0 Hloop].
  apply (generate_loop_served _ _ _ _ _ Hhash Hplain Hloop). constructor.
Qed.

End Served.

Lemma toy_plain_hash text (x : host) : plain_name (fst (hash_now text x)).
Proof.
  unfold plain_name. simpl. rewrite list_ascii_of_string_of_list_ascii.
  constructor; [repeat split; discriminate|].
  induction (clock x) as [|n IH]; simpl; constructor;
    [repeat split; discriminate | exact IH].
Qed.

Lemma response_files_exist_witness :
  let request := Request "POST" [("text[]", "Hello."); ("text[]", "Bye.")] in
  Forall (served (snd (generate (float := Q) request (fresh good_host))))
    match fst (generate (float := Q) request (fresh good_host)) with
    | Ok (Response (AudioUrls results) _) => results
    | _ => []
    end.
Proof.
  intros request.
  destruct (generate (float := Q) request (fresh good_host)) as [r w'] eqn:E.
  assert (Er : r = fst (generate (float := Q) request (fresh good_host)))
    by now rewrite E.
  vm_compute in Er. subst r.
  refine (response_files_exist request (fresh good_host) _ _ toy_plain_hash _ E).
  repeat constructor; simpl; discriminate.
Defined.

(** A voice with a separator in it sends the file out of the audio
    directory, and the url of the entry, made of the base name alone, names
    no file of the audio directory. *)
Example response_file_outside_audio_dir :
  let request := Request "POST" [("text", "Hello."); ("voice", "../up")] in
  let w' := snd (generate (float := Q) request (fresh good_host)) in
  fst (generate (float := Q) request (fresh good_host))
  = Ok (Response
          (AudioUrls [Synthesis "/static/audio/up_7.wav" (1 # 4000)
                        [Chunk 0 (1 # 4000)] "../up"]%Q) 200)
  /\ fs w' !! AUDIO_DIR = Some []
  /\ fs w' !! (AUDIO_DIR +:+ "/..") = Some [("up_7.wav", File [0; 0; 0; 0; 0; 0]%Z)].
Proof. vm_compute. repeat split; reflexivity. Qed.
